(** * Live interview hook: PCM codec, base64 transport, playback scheduling,
      session lifecycle, and the job-listing post-processing.

    A shallow embedding of [hooks/useLiveInterview], of
    [services/geminiService.searchJobs] and of the progress, sidebar and
    quiz handlers of [App].

    Numbers.  A [Float32Array] element read by the script is a double that
    holds a binary32 value.  For such a value [s] with [|s| <= 1] the
    products [s * 0x8000] and [s * 0x7fff] need at most 24 + 15 significant
    bits, so the double multiplication is exact; likewise [v / 32768.0] for
    a 16-bit integer [v] is exact.  Finite samples are therefore modelled
    by rationals, next to the three non-finite values.  Times on the output
    clock are modelled by rationals as well. *)

From Stdlib Require Import Strings.String Strings.Ascii Strings.Byte.
From Stdlib Require Import NArith ZArith QArith Qround Qabs Lqa Lia List Bool.
Import ListNotations.

(** ** ECMAScript numbers, as far as the hook uses them *)

Module JS.

Inductive num : Type :=
| NaN
| PosInf
| NegInf
| Fin (q : Q).

Definition is_neg (q : Q) : bool := negb (Qle_bool 0 q).

(** [Math.min(a, b)]: NaN if either is NaN, otherwise the smaller. *)
Definition min (a b : num) : num :=
  match a, b with
  | NaN, _ | _, NaN => NaN
  | NegInf, _ | _, NegInf => NegInf
  | PosInf, x | x, PosInf => x
  | Fin p, Fin q => if Qle_bool p q then Fin p else Fin q
  end.

(** [Math.max(a, b)]: NaN if either is NaN, otherwise the larger. *)
Definition max (a b : num) : num :=
  match a, b with
  | NaN, _ | _, NaN => NaN
  | PosInf, _ | _, PosInf => PosInf
  | NegInf, x | x, NegInf => x
  | Fin p, Fin q => if Qle_bool p q then Fin q else Fin p
  end.

(** [a < b]: false as soon as one side is NaN. *)
Definition lt (a b : num) : bool :=
  match a, b with
  | NaN, _ | _, NaN => false
  | _, NegInf => false
  | NegInf, _ => true
  | PosInf, _ => false
  | _, PosInf => true
  | Fin p, Fin q => negb (Qle_bool q p)
  end.

Definition is_zero (q : Q) : bool := Qeq_bool q 0.

(** [a * b]: an infinity times zero is NaN. *)
Definition mul (a b : num) : num :=
  match a, b with
  | NaN, _ | _, NaN => NaN
  | Fin p, Fin q => Fin (p * q)
  | Fin p, PosInf | PosInf, Fin p =>
      if is_zero p then NaN else if is_neg p then NegInf else PosInf
  | Fin p, NegInf | NegInf, Fin p =>
      if is_zero p then NaN else if is_neg p then PosInf else NegInf
  | PosInf, PosInf | NegInf, NegInf => PosInf
  | PosInf, NegInf | NegInf, PosInf => NegInf
  end.

(** Truncation toward zero, the integer part used by [ToInt16]. *)
Definition truncate (q : Q) : Z :=
  if is_neg q then Qceiling q else Qfloor q.

(** [ToInt16]: NaN and the infinities give 0; a finite number is truncated
    toward zero and reduced modulo 2^16 into [-2^15, 2^15). *)
Definition ToInt16 (x : num) : Z :=
  match x with
  | Fin q =>
      let m := (truncate q mod 65536)%Z in
      if (32768 <=? m)%Z then (m - 65536)%Z else m
  | _ => 0%Z
  end.

End JS.

(** ** Byte buffers and the [DataView] accessors *)

Module Buf.

Definition byte_of_Z (z : Z) : byte :=
  match Byte.of_N (Z.to_N (z mod 256)) with
  | Some b => b
  | None => x00
  end.

Definition Z_of_byte (b : byte) : Z := Z.of_N (Byte.to_N b).

(** The two bytes of a 16-bit two's-complement integer, low byte first. *)
Definition int16_le (v : Z) : list byte :=
  [byte_of_Z v; byte_of_Z (v / 256)].

(** [new ArrayBuffer(n)]: [n] zero bytes. *)
Definition alloc (n : nat) : list byte := repeat x00 n.

(** [view.setInt16(offset, value, true)]; [None] stands for the RangeError
    raised when the two bytes do not fit in the buffer. *)
Definition setInt16 (buf : list byte) (offset : nat) (value : JS.num)
  : option (list byte) :=
  if (offset + 2 <=? length buf)%nat
  then Some (firstn offset buf ++ int16_le (JS.ToInt16 value)
               ++ skipn (offset + 2) buf)
  else None.

(** [view.getInt16(offset, true)]; [None] stands for the RangeError. *)
Definition getInt16 (buf : list byte) (offset : nat) : option Z :=
  match nth_error buf offset, nth_error buf (offset + 1) with
  | Some lo, Some hi =>
      let u := (Z_of_byte lo + 256 * Z_of_byte hi)%Z in
      Some (if (32768 <=? u)%Z then (u - 65536)%Z else u)
  | _, _ => None
  end.

End Buf.

(** ** PCM codec *)

Module Pcm.

Import JS Buf.

(** The value handed to [setInt16] for one sample (source lines 10-11):
    [s = Math.max(-1, Math.min(1, x))], then [s < 0 ? s * 0x8000 : s * 0x7fff]. *)
Definition scaled (x : num) : num :=
  let s := max (Fin (-1)) (min (Fin 1) x) in
  if lt s (Fin 0) then mul s (Fin 32768) else mul s (Fin 32767).

(** The loop of [floatTo16BitPCM]: sample [i] is written at offset [2 * i]. *)
Fixpoint pcm_loop (samples : list num) (offset : nat) (buf : list byte)
  : option (list byte) :=
  match samples with
  | [] => Some buf
  | x :: rest =>
      match setInt16 buf offset (scaled x) with
      | Some buf' => pcm_loop rest (offset + 2) buf'
      | None => None
      end
  end.

Definition floatTo16BitPCM (float32Array : list num) : option (list byte) :=
  pcm_loop float32Array 0 (alloc (List.length float32Array * 2)).

(** The 16-bit integer stored for one sample. *)
Definition sample16 (x : num) : Z := ToInt16 (scaled x).

(** The inbound conversion (source lines 125-130): a [Float32Array] of
    [uint8Array.length / 2] elements, the length truncated to an integer,
    element [i] being [getInt16(i * 2, true) / 32768.0]. *)
Fixpoint decode_loop (bytes : list byte) (i count : nat) : option (list Q) :=
  match count with
  | O => Some []
  | S count' =>
      match getInt16 bytes (i * 2) with
      | Some v =>
          match decode_loop bytes (S i) count' with
          | Some rest => Some ((inject_Z v / 32768)%Q :: rest)
          | None => None
          end
      | None => None
      end
  end.

Definition decodePCM (uint8Array : list byte) : option (list Q) :=
  decode_loop uint8Array 0 (List.length uint8Array / 2).

End Pcm.

(** ** Frame transport: base64 text *)

Module Base64.

(** Script strings are held as [string]: a binary string, whose code units
    are all below 256, is exactly a sequence of 8-bit characters.  [btoa]
    is only ever applied to strings built with [String.fromCharCode] from
    the elements of a [Uint8Array], which is the domain on which it does not
    throw; a code unit above 255 in an inbound payload is outside the base64
    alphabet in the script as any other foreign character is here. *)

Local Open Scope N_scope.
Local Open Scope char_scope.

Definition alphabet : list ascii :=
  list_ascii_of_string
    "ABCDEFGHIJKLMNOPQRSTUVWXYZabcdefghijklmnopqrstuvwxyz0123456789+/".

Definition b64_char (k : N) : ascii := nth (N.to_nat k) alphabet "A".

Fixpoint index_of (c : ascii) (l : list ascii) (i : N) : option N :=
  match l with
  | [] => None
  | d :: l' => if Ascii.eqb c d then Some i else index_of c l' (i + 1)
  end.

Definition b64_index (c : ascii) : option N := index_of c alphabet 0.

(** The 6-bit groups of a byte sequence; a final group of one or two bytes
    is padded with zero bits. *)
Fixpoint sextets (l : list N) : list N :=
  match l with
  | a :: b :: c :: rest =>
      a / 4 :: (a mod 4) * 16 + b / 16 :: (b mod 16) * 4 + c / 64 :: c mod 64
        :: sextets rest
  | [a; b] => [a / 4; (a mod 4) * 16 + b / 16; (b mod 16) * 4]
  | [a] => [a / 4; (a mod 4) * 16]
  | [] => []
  end.

Definition padding (n : nat) : list ascii :=
  match (n mod 3)%nat with
  | 1%nat => ["="; "="]
  | 2%nat => ["="]
  | _ => []
  end.

(** [btoa]: standard base64 with padding, no line breaks. *)
Definition btoa (binary : string) : string :=
  let codes := map N_of_ascii (list_ascii_of_string binary) in
  string_of_list_ascii
    (map b64_char (sextets codes) ++ padding (List.length codes)).

Definition is_ascii_whitespace (c : ascii) : bool :=
  match N_of_ascii c with
  | 9 | 10 | 12 | 13 | 32 => true
  | _ => false
  end.

(** Step 2 of the forgiving decoder: when the length is a multiple of four,
    one or two trailing [=] are removed. *)
Definition strip_padding (l : list ascii) : list ascii :=
  if (List.length l mod 4 =? 0)%nat then
    match rev l with
    | c1 :: r1 =>
        if (c1 =? "=")%char then
          match r1 with
          | c2 :: r2 => if (c2 =? "=")%char then rev r2 else rev r1
          | [] => rev r1
          end
        else l
    | [] => l
    end
  else l.

Fixpoint indices (l : list ascii) : option (list N) :=
  match l with
  | [] => Some []
  | c :: l' =>
      match b64_index c, indices l' with
      | Some k, Some ks => Some (k :: ks)
      | _, _ => None
      end
  end.

(** The bytes of a sequence of 6-bit groups; the surplus bits of a final
    group of two or three are discarded. *)
Fixpoint octets (l : list N) : list N :=
  match l with
  | s0 :: s1 :: s2 :: s3 :: rest =>
      s0 * 4 + s1 / 16 :: (s1 mod 16) * 16 + s2 / 4 :: (s2 mod 4) * 64 + s3
        :: octets rest
  | [s0; s1; s2] => [s0 * 4 + s1 / 16; (s1 mod 16) * 16 + s2 / 4]
  | [s0; s1] => [s0 * 4 + s1 / 16]
  | _ => []
  end.

(** [atob]: the forgiving base64 decoder.  ASCII whitespace is removed,
    padding is stripped, a length congruent to 1 modulo 4 or a character
    outside the alphabet fails ([None] stands for InvalidCharacterError). *)
Definition atob (data : string) : option string :=
  let stripped :=
    strip_padding
      (filter (fun c => negb (is_ascii_whitespace c))
              (list_ascii_of_string data)) in
  if (List.length stripped mod 4 =? 1)%nat then None
  else
    match indices stripped with
    | Some ks => Some (string_of_list_ascii (map ascii_of_N (octets ks)))
    | None => None
    end.

(** [String.fromCharCode(b)] and [s.charCodeAt(i)] on bytes. *)
Definition fromCharCode (b : byte) : ascii := ascii_of_byte b.
Definition charCode (c : ascii) : byte := byte_of_ascii c.

(** Source lines 16-23: [atob], then one byte per character. *)
Definition base64ToUint8Array (base64 : string) : option (list byte) :=
  match atob base64 with
  | Some binaryString => Some (map charCode (list_ascii_of_string binaryString))
  | None => None
  end.

(** Source lines 82-88: the bytes of the PCM buffer are appended to a
    binary string one character at a time, which is then passed to [btoa]. *)
Definition binaryOfBytes (bytes : list byte) : string :=
  fold_left (fun binary b => (binary ++ String (fromCharCode b) EmptyString)%string)
            bytes EmptyString.

Definition toTransportText (bytes : list byte) : string :=
  btoa (binaryOfBytes bytes).

End Base64.

(** ** The hook: state, platform calls, handlers *)

Module Live.

Local Open Scope string_scope.

(** Calls on platform objects, in the order they are made.  Objects are
    named by the number drawn for them when they are created. *)
Inductive effect : Type :=
| NewAudioContext (ctx : nat) (sampleRate : Z)
| GetUserMedia (stream : nat)
| CreateMediaStreamSource (ctx node stream : nat)
| CreateScriptProcessor (ctx node : nat)
| NodeConnect (node : nat)
| VideoPlay (stream : nat)
| LiveConnect (session : nat) (role : string)
| SetInterval (timer : nat)
| SendRealtimeInput (session : nat) (mimeType data : string)
| SourceStart (ctx : nat) (when : Q) (frames : nat)
| NodeDisconnect (node : nat)
| ContextClose (ctx : nat)
| ClearInterval (timer : nat)
| StopTracks (stream : nat)
| ConsoleError.

(** The hook's React state, its refs, the video element handed in by the
    caller ([None]: no element; [Some None]: an element without a stream),
    and the platform calls made so far. *)
Record hook : Type := mkHook {
  isConnected : bool;
  isSpeaking : bool;
  error : option string;
  logs : list string;
  audioContextRef : option nat;
  inputSourceRef : option nat;
  processorRef : option nat;
  sessionRef : option nat;
  nextStartTimeRef : Q;
  videoIntervalRef : option nat;
  videoRef : option (option nat);
  trace : list effect;
  fresh : nat
}.

(** The hook as [useState]/[useRef] initialise it. *)
Definition initial (video : option (option nat)) : hook :=
  mkHook false false None [] None None None None 0 None video [] 0.

(** Handlers run in a state monad over [hook] that can throw. *)
Inductive result (A : Type) : Type :=
| Ok (a : A)
| Throw (message : string).
Arguments Ok {A} a.
Arguments Throw {A} message.

Definition M (A : Type) : Type := hook -> result A * hook.

Definition ret {A} (a : A) : M A := fun h => (Ok a, h).
Definition throw {A} (message : string) : M A := fun h => (Throw message, h).
Definition bind {A B} (m : M A) (k : A -> M B) : M B :=
  fun h => match m h with
           | (Ok a, h') => k a h'
           | (Throw e, h') => (Throw e, h')
           end.
Definition try_catch {A} (m : M A) (handler : string -> M A) : M A :=
  fun h => match m h with
           | (Ok a, h') => (Ok a, h')
           | (Throw e, h') => handler e h'
           end.
Definition gets {A} (f : hook -> A) : M A := fun h => (Ok (f h), h).
Definition modify (f : hook -> hook) : M unit := fun h => (Ok tt, f h).

Notation "x <- m ;; k" := (bind m (fun x => k))
  (at level 61, m at next level, right associativity).
Notation "m ;; k" := (bind m (fun _ => k))
  (at level 61, right associativity).

Definition setIsConnected (b : bool) : M unit :=
  modify (fun h => mkHook b (isSpeaking h) (error h) (logs h)
    (audioContextRef h) (inputSourceRef h) (processorRef h) (sessionRef h)
    (nextStartTimeRef h) (videoIntervalRef h) (videoRef h) (trace h) (fresh h)).
Definition setIsSpeaking (b : bool) : M unit :=
  modify (fun h => mkHook (isConnected h) b (error h) (logs h)
    (audioContextRef h) (inputSourceRef h) (processorRef h) (sessionRef h)
    (nextStartTimeRef h) (videoIntervalRef h) (videoRef h) (trace h) (fresh h)).
Definition setError (e : option string) : M unit :=
  modify (fun h => mkHook (isConnected h) (isSpeaking h) e (logs h)
    (audioContextRef h) (inputSourceRef h) (processorRef h) (sessionRef h)
    (nextStartTimeRef h) (videoIntervalRef h) (videoRef h) (trace h) (fresh h)).
Definition addLog (msg : string) : M unit :=
  modify (fun h => mkHook (isConnected h) (isSpeaking h) (error h)
    (logs h ++ [msg])
    (audioContextRef h) (inputSourceRef h) (processorRef h) (sessionRef h)
    (nextStartTimeRef h) (videoIntervalRef h) (videoRef h) (trace h) (fresh h)).
Definition set_audioContextRef (r : option nat) : M unit :=
  modify (fun h => mkHook (isConnected h) (isSpeaking h) (error h) (logs h)
    r (inputSourceRef h) (processorRef h) (sessionRef h)
    (nextStartTimeRef h) (videoIntervalRef h) (videoRef h) (trace h) (fresh h)).
Definition set_inputSourceRef (r : option nat) : M unit :=
  modify (fun h => mkHook (isConnected h) (isSpeaking h) (error h) (logs h)
    (audioContextRef h) r (processorRef h) (sessionRef h)
    (nextStartTimeRef h) (videoIntervalRef h) (videoRef h) (trace h) (fresh h)).
Definition set_processorRef (r : option nat) : M unit :=
  modify (fun h => mkHook (isConnected h) (isSpeaking h) (error h) (logs h)
    (audioContextRef h) (inputSourceRef h) r (sessionRef h)
    (nextStartTimeRef h) (videoIntervalRef h) (videoRef h) (trace h) (fresh h)).
Definition set_sessionRef (r : option nat) : M unit :=
  modify (fun h => mkHook (isConnected h) (isSpeaking h) (error h) (logs h)
    (audioContextRef h) (inputSourceRef h) (processorRef h) r
    (nextStartTimeRef h) (videoIntervalRef h) (videoRef h) (trace h) (fresh h)).
Definition set_nextStartTimeRef (t : Q) : M unit :=
  modify (fun h => mkHook (isConnected h) (isSpeaking h) (error h) (logs h)
    (audioContextRef h) (inputSourceRef h) (processorRef h) (sessionRef h)
    t (videoIntervalRef h) (videoRef h) (trace h) (fresh h)).
Definition set_videoIntervalRef (r : option nat) : M unit :=
  modify (fun h => mkHook (isConnected h) (isSpeaking h) (error h) (logs h)
    (audioContextRef h) (inputSourceRef h) (processorRef h) (sessionRef h)
    (nextStartTimeRef h) r (videoRef h) (trace h) (fresh h)).
Definition set_srcObject (stream : option nat) : M unit :=
  modify (fun h => mkHook (isConnected h) (isSpeaking h) (error h) (logs h)
    (audioContextRef h) (inputSourceRef h) (processorRef h) (sessionRef h)
    (nextStartTimeRef h) (videoIntervalRef h)
    (match videoRef h with Some _ => Some stream | None => None end)
    (trace h) (fresh h)).
Definition emit (e : effect) : M unit :=
  modify (fun h => mkHook (isConnected h) (isSpeaking h) (error h) (logs h)
    (audioContextRef h) (inputSourceRef h) (processorRef h) (sessionRef h)
    (nextStartTimeRef h) (videoIntervalRef h) (videoRef h)
    (trace h ++ [e]) (fresh h)).
(** A new platform object: the next unused number. *)
Definition new_object : M nat :=
  fun h => (Ok (fresh h),
            mkHook (isConnected h) (isSpeaking h) (error h) (logs h)
              (audioContextRef h) (inputSourceRef h) (processorRef h)
              (sessionRef h) (nextStartTimeRef h) (videoIntervalRef h)
              (videoRef h) (trace h) (S (fresh h))).

(** [if (r.current) ...] on a ref holding an object or null. *)
Definition when_set (r : option nat) (f : nat -> M unit) : M unit :=
  match r with
  | Some x => f x
  | None => ret tt
  end.

(** Truthiness of a string: the empty string is falsy. *)
Definition truthy (s : string) : bool :=
  match s with
  | EmptyString => false
  | String _ _ => true
  end.

(** What the surroundings answer to one [connect]: the configured key and
    whether the user grants the microphone and camera (otherwise the
    message of the rejection). *)
Record environment : Type := mkEnv {
  API_KEY : option string;
  userMedia : option string
}.

Definition granted (env : environment) : bool :=
  match userMedia env with
  | None => true
  | Some _ => false
  end.

Definition newAudioContext (sampleRate : Z) : M nat :=
  ctx <- new_object ;;
  emit (NewAudioContext ctx sampleRate) ;;
  ret ctx.

Definition getUserMedia (env : environment) : M nat :=
  match userMedia env with
  | Some message => throw message
  | None =>
      stream <- new_object ;;
      emit (GetUserMedia stream) ;;
      ret stream
  end.

(** Source lines 40-180.  The continuation after [await getUserMedia] is
    run in the same step as the part before it.  There is no test of the
    hook's state anywhere in the body. *)
Definition connect (role : string) (env : environment) : M unit :=
  try_catch
    (setError None ;;
     (match API_KEY env with
      | Some k => if truthy k then ret tt else throw "API Key missing"
      | None => throw "API Key missing"
      end) ;;
     ctx <- newAudioContext 24000 ;;
     set_audioContextRef (Some ctx) ;;
     stream <- getUserMedia env ;;
     inputContext <- newAudioContext 16000 ;;
     source <- new_object ;;
     emit (CreateMediaStreamSource inputContext source stream) ;;
     processor <- new_object ;;
     emit (CreateScriptProcessor inputContext processor) ;;
     set_inputSourceRef (Some source) ;;
     set_processorRef (Some processor) ;;
     emit (NodeConnect source) ;;
     emit (NodeConnect processor) ;;
     video <- gets videoRef ;;
     (match video with
      | Some _ => set_srcObject (Some stream) ;; emit (VideoPlay stream)
      | None => ret tt
      end) ;;
     session <- new_object ;;
     emit (LiveConnect session role) ;;
     set_sessionRef (Some session))
    (fun message => setError (Some message) ;; setIsConnected false).

(** Source lines 74-116: the connection is acknowledged. *)
Definition onopen : M unit :=
  setIsConnected true ;;
  addLog "Connected to Interviewer" ;;
  timer <- new_object ;;
  emit (SetInterval timer) ;;
  set_videoIntervalRef (Some timer).

(** Source lines 79-95: one captured buffer is encoded and sent on the
    session of the enclosing [connect]. *)
Definition onaudioprocess (session : nat) (inputData : list JS.num) : M unit :=
  match Pcm.floatTo16BitPCM inputData with
  | Some pcmData =>
      emit (SendRealtimeInput session "audio/pcm;rate=16000"
              (Base64.toTransportText pcmData))
  | None => throw "RangeError"
  end.

Definition sampleRate : Z := 24000.

(** [buffer.duration] of a buffer of [frames] frames. *)
Definition duration (frames : nat) : Q := inject_Z (Z.of_nat frames) / inject_Z sampleRate.

(** [Math.max] on two finite times. *)
Definition later (a b : Q) : Q := if Qle_bool a b then b else a.

(** [audioCtx.createBuffer(1, length, 24000)] refuses a length of zero. *)
Definition createBuffer (frames : nat) : M nat :=
  match frames with
  | O => throw "NotSupportedError"
  | S _ => ret frames
  end.

(** Source lines 117-150.  [now] is what [audioCtx.currentTime] reads at
    line 139; [audioData] is the optional chain of line 118. *)
Definition onmessage (now : Q) (audioData : option string) : M unit :=
  match audioData with
  | Some data =>
      if truthy data then
        setIsSpeaking true ;;
        current <- gets audioContextRef ;;
        match current with
        | None => ret tt
        | Some audioCtx =>
            uint8Array <-
              (match Base64.base64ToUint8Array data with
               | Some bytes => ret bytes
               | None => throw "InvalidCharacterError"
               end) ;;
            float32Array <-
              (match Pcm.decodePCM uint8Array with
               | Some samples => ret samples
               | None => throw "RangeError"
               end) ;;
            frames <- createBuffer (List.length float32Array) ;;
            cursor <- gets nextStartTimeRef ;;
            let startTime := later now cursor in
            emit (SourceStart audioCtx startTime frames) ;;
            set_nextStartTimeRef (startTime + duration frames)%Q
        end
      else ret tt
  | None => ret tt
  end.

(** Source lines 144-148: a source has finished playing; [now] is what the
    clock of its context reads. *)
Definition onended (now : Q) : M unit :=
  cursor <- gets nextStartTimeRef ;;
  if Qle_bool cursor now then setIsSpeaking false else ret tt.

(** Source lines 151-154. *)
Definition onclose : M unit :=
  setIsConnected false ;;
  addLog "Connection closed".

(** Source lines 155-159. *)
Definition onerror : M unit :=
  emit ConsoleError ;;
  setError (Some "Connection error occurred") ;;
  setIsConnected false.

(** Source lines 182-198.  The refs keep their objects; only the video
    element's stream is set back to null. *)
Definition disconnect : M unit :=
  r1 <- gets inputSourceRef ;;
  when_set r1 (fun node => emit (NodeDisconnect node)) ;;
  r2 <- gets processorRef ;;
  when_set r2 (fun node => emit (NodeDisconnect node)) ;;
  r3 <- gets audioContextRef ;;
  when_set r3 (fun ctx => emit (ContextClose ctx)) ;;
  r4 <- gets videoIntervalRef ;;
  when_set r4 (fun timer => emit (ClearInterval timer)) ;;
  video <- gets videoRef ;;
  (match video with
   | Some (Some stream) => emit (StopTracks stream) ;; set_srcObject None
   | _ => ret tt
   end) ;;
  setIsConnected false ;;
  setIsSpeaking false ;;
  set_nextStartTimeRef 0.

(** The events delivered to the hook. *)
Inductive event : Type :=
| Connect (role : string) (env : environment)
| Open
| AudioProcess (session : nat) (inputData : list JS.num)
| Message (audioData : option string)
| Ended
| Close
| Error
| Disconnect.

Definition handler (now : Q) (ev : event) : M unit :=
  match ev with
  | Connect role env => connect role env
  | Open => onopen
  | AudioProcess session inputData => onaudioprocess session inputData
  | Message audioData => onmessage now audioData
  | Ended => onended now
  | Close => onclose
  | Error => onerror
  | Disconnect => disconnect
  end.

(** One event, delivered when the output clock reads [now]; a handler that
    throws leaves the state it reached. *)
Definition step (now : Q) (ev : event) (h : hook) : hook :=
  snd (handler now ev h).

Definition run (evs : list (Q * event)) (h : hook) : hook :=
  fold_left (fun h' e => step (fst e) (snd e) h') evs h.

(** Counting platform calls. *)
Definition is_LiveConnect (e : effect) : bool :=
  match e with LiveConnect _ _ => true | _ => false end.
Definition is_output_context (e : effect) : bool :=
  match e with NewAudioContext _ rate => (rate =? 24000)%Z | _ => false end.
Definition is_GetUserMedia (e : effect) : bool :=
  match e with GetUserMedia _ => true | _ => false end.

Definition count (p : effect -> bool) (h : hook) : nat :=
  List.length (filter p (trace h)).

(** The start times handed to [source.start], oldest first. *)
Fixpoint starts (t : list effect) : list Q :=
  match t with
  | [] => []
  | SourceStart _ when _ :: t' => when :: starts t'
  | _ :: t' => starts t'
  end.

End Live.

(** ** Job listings from grounding chunks *)

Module Jobs.

(** Script strings are held here as their UTF-16 code units (numbers
    below 65536), since [encodeURIComponent] fails on a surrogate that has
    no partner. *)
Definition jsstring : Type := list N.

(** A string literal of the source. *)
Definition lit (s : string) : jsstring :=
  map N_of_ascii (list_ascii_of_string s).

(** The part of the model's response that [searchJobs] reads; every link
    of the optional chain may be missing. *)
Record Web : Type := mkWeb {
  uri : option jsstring;
  web_title : option jsstring
}.

Record GroundingChunk : Type := mkChunk {
  web : option Web
}.

Record Candidate : Type := mkCandidate {
  groundingMetadata : option (option (list GroundingChunk))
}.

Record Response : Type := mkResponse {
  candidates : option (list Candidate)
}.

Record JobListing : Type := mkJob {
  title : jsstring;
  company : jsstring;
  location : jsstring;
  url : jsstring
}.

(** What an awaited call gives: a value, or the reason it was rejected or
    threw with. *)
Inductive result (A : Type) : Type :=
| Ok (a : A)
| Throw (reason : string).
Arguments Ok {A} a.
Arguments Throw {A} reason.

Definition truthy (s : option jsstring) : bool :=
  match s with
  | Some (_ :: _) => true
  | _ => false
  end.

(** [s || fallback] on an optional string. *)
Definition or_else (s : option jsstring) (fallback : jsstring) : jsstring :=
  match s with
  | Some (c :: r) => c :: r
  | _ => fallback
  end.

(** [c.web?.uri] and [c.web?.title]. *)
Definition chunk_uri (c : GroundingChunk) : option jsstring :=
  match web c with Some w => uri w | None => None end.
Definition chunk_title (c : GroundingChunk) : option jsstring :=
  match web c with Some w => web_title w | None => None end.

(** [response.candidates?.[0]?.groundingMetadata?.groundingChunks || []]. *)
Definition groundingChunks (response : Response) : list GroundingChunk :=
  match candidates response with
  | Some (c :: _) =>
      match groundingMetadata c with
      | Some (Some chunks) => chunks
      | _ => []
      end
  | _ => []
  end.

Local Open Scope N_scope.

(** Leading and trailing surrogates. *)
Definition is_high (c : N) : bool := (55296 <=? c) && (c <=? 56319).
Definition is_low (c : N) : bool := (56320 <=? c) && (c <=? 57343).

(** [s.isWellFormed()]: every surrogate is half of a pair. *)
Fixpoint well_formed (s : jsstring) : bool :=
  match s with
  | [] => true
  | c :: rest =>
      if is_low c then false
      else if is_high c then
        match rest with
        | d :: rest' => is_low d && well_formed rest'
        | [] => false
        end
      else well_formed rest
  end.

(** The characters [encodeURIComponent] leaves as they are: letters,
    digits and [- _ . ! ~ * ' ( )]. *)
Definition unreserved (c : N) : bool :=
  (65 <=? c) && (c <=? 90) || (97 <=? c) && (c <=? 122)
  || (48 <=? c) && (c <=? 57)
  || existsb (N.eqb c) [45; 95; 46; 33; 126; 42; 39; 40; 41].

Definition hex_digit (n : N) : N :=
  nth (N.to_nat n) (lit "0123456789ABCDEF") 48.

(** [%XX] for one octet. *)
Definition percent (octet : N) : jsstring :=
  [37; hex_digit (octet / 16); hex_digit (octet mod 16)].

(** The UTF-8 octets of a code point. *)
Definition utf8 (cp : N) : list N :=
  if cp <? 128 then [cp]
  else if cp <? 2048 then [192 + cp / 64; 128 + cp mod 64]
  else if cp <? 65536 then
    [224 + cp / 4096; 128 + (cp / 64) mod 64; 128 + cp mod 64]
  else
    [240 + cp / 262144; 128 + (cp / 4096) mod 64; 128 + (cp / 64) mod 64;
     128 + cp mod 64].

(** The code point of a surrogate pair. *)
Definition pair_code_point (high low : N) : N :=
  (high - 55296) * 1024 + (low - 56320) + 65536.

(** [encodeURIComponent]; [None] stands for the URIError thrown at a
    surrogate without its partner. *)
Fixpoint encodeURIComponent (s : jsstring) : option jsstring :=
  match s with
  | [] => Some []
  | c :: rest =>
      if unreserved c then
        option_map (cons c) (encodeURIComponent rest)
      else if is_low c then None
      else if is_high c then
        match rest with
        | d :: rest' =>
            if is_low d then
              option_map (app (flat_map percent (utf8 (pair_code_point c d))))
                         (encodeURIComponent rest')
            else None
        | [] => None
        end
      else
        option_map (app (flat_map percent (utf8 c))) (encodeURIComponent rest)
  end.

Definition usable (c : GroundingChunk) : bool :=
  truthy (chunk_uri c) && truthy (chunk_title c).

Definition listing_of (location : jsstring) (c : GroundingChunk) : JobListing :=
  mkJob (or_else (chunk_title c) (lit "Job Opening")) (lit "Source: Web")
        location (or_else (chunk_uri c) (lit "#")).

(** The fallback listing of source line 215; it does not exist when the
    role cannot be encoded. *)
Definition fallback (role location : jsstring) : option JobListing :=
  match encodeURIComponent (role ++ lit " jobs") with
  | Some query =>
      Some (mkJob (role ++ lit " - Search Results") (lit "Google Search")
                  location (lit "https://www.google.com/search?q=" ++ query))
  | None => None
  end.

(** Source lines 189-220.  [generated] is what awaiting [generateContent]
    gives: the response, or the reason of the rejection, which nothing
    catches.  [location] is the optional second argument, [Remote] when
    omitted. *)
Definition searchJobs (role : jsstring) (location : option jsstring)
    (generated : result Response) : result (list JobListing) :=
  let location := match location with Some l => l | None => lit "Remote" end in
  match generated with
  | Throw reason => Throw reason
  | Ok response =>
      let chunks := groundingChunks response in
      let listings :=
        firstn 6 (map (listing_of location) (filter usable chunks)) in
      if (List.length listings =? 0)%nat then
        match fallback role location with
        | Some listing => Ok [listing]
        | None => Throw "URIError"
        end
      else Ok listings
  end.

End Jobs.


(** ** Auxiliary notions used in the statements *)

Module Aux.

Import JS.

(** [Math.max(-1, Math.min(1, q))] on a finite number. *)
Definition clamp (q : Q) : Q :=
  let m := if Qle_bool 1 q then 1 else q in
  if Qle_bool (-1) m then m else -1.

(** The factor applied to a clamped sample. *)
Definition scale (s : Q) : Q := if is_neg s then 32768 else 32767.

(** The rounding as the specification words it, toward the sign of the
    number: up for a non-negative number, down for a negative one. *)
Definition round_to_sign (q : Q) : Z :=
  if is_neg q then Qfloor q else Qceiling q.

(** The 16-bit value of a finite sample as the specification words it:
    clamp, scale, round toward the sign. *)
Definition encode16_to_sign (q : Q) : Z :=
  round_to_sign (clamp q * scale (clamp q)).

(** The sample stored for a received 16-bit integer: [v / 32768.0]. *)
Definition dequantize (v : Z) : Q := inject_Z v / 32768.

(** Outbound encoding followed by the inbound conversion. *)
Definition pcm_roundtrip (s : list Q) : option (list Q) :=
  match Pcm.floatTo16BitPCM (map Fin s) with
  | Some bytes => Pcm.decodePCM bytes
  | None => None
  end.

Definition in_unit_range (q : Q) : Prop := -1 <= q /\ q <= 1.

(** Character codes of a binary string. *)
Definition byte_sized (l : list N) : Prop := Forall (fun a => (a < 256)%N) l.

(** An inbound payload that decodes to the bytes [b], at least one sample
    long. *)
Definition segment (data : string) (b : list byte) : Prop :=
  Live.truthy data = true
  /\ Base64.base64ToUint8Array data = Some b
  /\ (2 <= List.length b)%nat.

(** The frames of a payload of [n] bytes. *)
Definition frames_of (b : list byte) : nat := (List.length b / 2)%nat.

(** Everything of the hook but the record of platform calls. *)
Definition same_state (g h : Live.hook) : Prop :=
  Live.isConnected g = Live.isConnected h
  /\ Live.isSpeaking g = Live.isSpeaking h
  /\ Live.error g = Live.error h
  /\ Live.logs g = Live.logs h
  /\ Live.audioContextRef g = Live.audioContextRef h
  /\ Live.inputSourceRef g = Live.inputSourceRef h
  /\ Live.processorRef g = Live.processorRef h
  /\ Live.sessionRef g = Live.sessionRef h
  /\ Live.nextStartTimeRef g = Live.nextStartTimeRef h
  /\ Live.videoIntervalRef g = Live.videoIntervalRef h
  /\ Live.videoRef g = Live.videoRef h
  /\ Live.fresh g = Live.fresh h.

(** A key is configured and the devices are granted. *)
Definition env_ok : Live.environment :=
  Live.mkEnv (Some "key"%string) None.

(** The hook after [connect] and the acknowledgement of the connection. *)
Definition active : Live.hook :=
  Live.run [(0, Live.Connect "Engineer" env_ok); (0, Live.Open)]
           (Live.initial (Some None)).

End Aux.

(** ** The timeline of scheduled segments *)

Module Timeline.

Import Live.

(** Every segment of the record of platform calls starts no earlier than
    [free], the end of the segment scheduled before it. *)
Fixpoint chained (free : Q) (t : list effect) : Prop :=
  match t with
  | [] => True
  | SourceStart _ when frames :: t' =>
      free <= when /\ chained (when + duration frames) t'
  | _ :: t' => chained free t'
  end.

(** The end of the last segment of the record, [free] when it has none. *)
Fixpoint busy_until (free : Q) (t : list effect) : Q :=
  match t with
  | [] => free
  | SourceStart _ when frames :: t' => busy_until (when + duration frames) t'
  | _ :: t' => busy_until free t'
  end.

(** Segments follow one another without overlap and the cursor is at or
    after the end of the last one. *)
Definition well_scheduled (h : hook) : Prop :=
  chained 0 (trace h) /\ busy_until 0 (trace h) <= nextStartTimeRef h.

(** A platform call other than the start of a segment. *)
Definition quiet (e : effect) : Prop := starts [e] = [].

(** The log line an event leaves, if any. *)
Definition log_of (ev : event) : list string :=
  match ev with
  | Open => ["Connected to Interviewer"%string]
  | Close => ["Connection closed"%string]
  | _ => []
  end.

Definition is_send (e : effect) : bool :=
  match e with SendRealtimeInput _ _ _ => true | _ => false end.

End Timeline.

(** ** The application shell: progress, sidebar, quiz pages *)

Module App.

Local Open Scope string_scope.

Inductive AppStep : Type :=
| UPLOAD
| ANALYSIS
| ROLE_SELECTION
| TECHNICAL_PREP
| TECHNICAL_QUIZ
| APTITUDE_JOBS
| FULL_MOCK
| HR_INTERVIEW.

Definition AppStep_eq_dec (a b : AppStep) : {a = b} + {a <> b}.
Proof. decide equality. Defined.

(** [steps.includes(step)]. *)
Definition includes (steps : list AppStep) (step : AppStep) : bool :=
  if in_dec AppStep_eq_dec step steps then true else false.

(** [new Set(values)] read back with [Array.from]: the distinct values in
    the order of their first occurrence. *)
Definition Set_add (s : list AppStep) (x : AppStep) : list AppStep :=
  if includes s x then s else s ++ [x].

Definition Set_from (values : list AppStep) : list AppStep :=
  fold_left Set_add values [].

Record SuggestedRole : Type := mkRole {
  title : string;
  matchScore : Q;
  reasoning : string;
  requiredSkills : option (list string)
}.

Record ParsedResume : Type := mkResume {
  fullName : string;
  summary : string;
  skills : list string;
  yearsOfExperience : Q;
  suggestedRoles : list SuggestedRole
}.

(** The state held by [App] (source lines 738-757). *)
Record app : Type := mkApp {
  resume : option ParsedResume;
  targetRole : option SuggestedRole;
  completedSteps : list AppStep
}.

(** The state of a first visit: nothing stored. *)
Definition fresh_app : app := mkApp None None [].

(** Source lines 759-761. *)
Definition completeStep (step : AppStep) (a : app) : app :=
  mkApp (resume a) (targetRole a) (Set_from (completedSteps a ++ [step])).

Definition setResume (r : ParsedResume) (a : app) : app :=
  mkApp (Some r) (targetRole a) (completedSteps a).

Definition setTargetRole (r : SuggestedRole) (a : app) : app :=
  mkApp (resume a) (Some r) (completedSteps a).

(** One entry of the sidebar (source lines 70-78). *)
Record item : Type := mkItem {
  step : AppStep;
  path : string;
  disabled : bool
}.

Definition present {A} (o : option A) : bool :=
  match o with Some _ => true | None => false end.

Definition menu (a : app) : list item :=
  [ mkItem UPLOAD "/" false;
    mkItem ANALYSIS "/analysis" (negb (present (resume a)));
    mkItem TECHNICAL_PREP "/technical-prep" (negb (present (targetRole a)));
    mkItem TECHNICAL_QUIZ "/technical-quiz"
      (negb (includes (completedSteps a) TECHNICAL_PREP)
       && negb (present (targetRole a)));
    mkItem APTITUDE_JOBS "/aptitude"
      (negb (includes (completedSteps a) TECHNICAL_QUIZ));
    mkItem FULL_MOCK "/full-mock"
      (negb (includes (completedSteps a) APTITUDE_JOBS));
    mkItem HR_INTERVIEW "/interview"
      (negb (includes (completedSteps a) FULL_MOCK)) ].

(** The paths the sidebar lets the user open. *)
Definition reachable (a : app) : list string :=
  map path (filter (fun i => negb (disabled i)) (menu a)).

(** Source lines 269-274: a role is chosen on the analysis page. *)
Definition handleSelectRole (role : SuggestedRole) (a : app) : app * string :=
  (completeStep ROLE_SELECTION (completeStep ANALYSIS (setTargetRole role a)),
   "/technical-prep").

(** Source lines 325-333: the link that skips the learning material. *)
Definition skipLearning (role : SuggestedRole) (a : app) : app * string :=
  (completeStep TECHNICAL_QUIZ
     (completeStep TECHNICAL_PREP
        (completeStep ROLE_SELECTION
           (completeStep ANALYSIS (setTargetRole role a)))),
   "/aptitude").

(** Source lines 176-183: the uploaded document has been parsed. *)
Definition uploadDone (data : ParsedResume) (a : app) : app * string :=
  (completeStep UPLOAD (setResume data a), "/analysis").

(** Source line 372: the preparation page is marked complete. *)
Definition markPrepComplete (a : app) : app * string :=
  (completeStep TECHNICAL_PREP a, "/technical-quiz").

(** Source lines 521-524. *)
Definition handleFinish (a : app) : app * string :=
  (completeStep APTITUDE_JOBS a, "/full-mock").

(** Source lines 773-779, without the stored copy. *)
Definition resetProgress (a : app) : app * string :=
  (mkApp None None [], "/").

Record QuizQuestion : Type := mkQuestion {
  question : string;
  options : list string;
  correctAnswer : Z;
  explanation : string
}.

(** The state of the technical quiz page (source lines 423-427), next to
    the steps completed so far. *)
Record quiz_page : Type := mkQuizPage {
  quiz : list QuizQuestion;
  score : nat;
  finished : bool;
  currentQ : nat;
  quiz_steps : list AppStep
}.

Definition startedQuiz (questions : list QuizQuestion) (steps : list AppStep)
  : quiz_page :=
  mkQuizPage questions 0 false 0 steps.

(** Source lines 436-444: option [idx] of the current question is chosen.
    [None] stands for the TypeError of reading [correctAnswer] of a missing
    question. *)
Definition handleAnswer (idx : nat) (p : quiz_page) : option quiz_page :=
  match nth_error (quiz p) (currentQ p) with
  | None => None
  | Some q =>
      let score' :=
        if (Z.of_nat idx =? correctAnswer q)%Z then S (score p) else score p in
      if (Z.of_nat (currentQ p) <? Z.of_nat (List.length (quiz p)) - 1)%Z
      then Some (mkQuizPage (quiz p) score' (finished p) (S (currentQ p))
                            (quiz_steps p))
      else Some (mkQuizPage (quiz p) score' true (currentQ p)
                            (Set_from (quiz_steps p ++ [TECHNICAL_QUIZ])))
  end.

Fixpoint answerAll (answers : list nat) (p : quiz_page) : option quiz_page :=
  match answers with
  | [] => Some p
  | idx :: rest =>
      match handleAnswer idx p with
      | Some p' => answerAll rest p'
      | None => None
      end
  end.

(** The answers that hit the correct option, question by question. *)
Fixpoint correct (answers : list nat) (questions : list QuizQuestion) : nat :=
  match answers, questions with
  | idx :: answers', q :: questions' =>
      (if (Z.of_nat idx =? correctAnswer q)%Z then 1 else 0)
      + correct answers' questions'
  | _, _ => 0
  end.

(** The state of the mock test page (source lines 585-588). *)
Record mock_page : Type := mkMockPage {
  questions : list QuizQuestion;
  current : nat;
  mock_finished : bool;
  mock_steps : list AppStep
}.

(** Source lines 599-606: any option of the current question is chosen. *)
Definition mockAnswer (p : mock_page) : mock_page :=
  if (Z.of_nat (current p) <? Z.of_nat (List.length (questions p)) - 1)%Z
  then mkMockPage (questions p) (S (current p)) (mock_finished p) (mock_steps p)
  else mkMockPage (questions p) (current p) true
                  (Set_from (mock_steps p ++ [FULL_MOCK])).

End App.

(** * Properties *)

(** ** PCM codec *)

Section PcmFacts.

Import JS Buf Pcm.

Lemma truncate_nonneg (q : Q) : 0 <= q -> truncate q = Qfloor q.
Proof.
  intros H. unfold truncate, is_neg.
  apply Qle_bool_iff in H. now rewrite H.
Qed.

Lemma truncate_neg (q : Q) : q < 0 -> truncate q = Qceiling q.
Proof.
  intros H. unfold truncate, is_neg.
  destruct (Qle_bool 0 q) eqn:E; [|reflexivity].
  apply Qle_bool_iff in E. lra.
Qed.

Lemma Qle_bool_false (a b : Q) : Qle_bool a b = false -> b < a.
Proof.
  intros H. apply Qnot_le_lt. intro L.
  apply Qle_bool_iff in L. congruence.
Qed.

(** Bounds of the truncated value. *)
Lemma truncate_bounds (q : Q) (lo hi : Z) :
  inject_Z lo <= q -> q <= inject_Z hi -> (lo <= 0)%Z -> (0 <= hi)%Z ->
  (lo <= truncate q <= hi)%Z.
Proof.
  intros Hlo Hhi L0 H0. unfold truncate, is_neg.
  destruct (Qle_bool 0 q) eqn:E; cbn [negb].
  - apply Qle_bool_iff in E. split.
    + apply Z.le_trans with 0%Z; [exact L0|].
      rewrite <- (Qfloor_Z 0). now apply Qfloor_resp_le.
    + rewrite <- (Qfloor_Z hi). now apply Qfloor_resp_le.
  - apply Qle_bool_false in E. split.
    + rewrite <- (Qceiling_Z lo). now apply Qceiling_resp_le.
    + apply Z.le_trans with 0%Z; [|exact H0].
      rewrite <- (Qceiling_Z 0). apply Qceiling_resp_le. now apply Qlt_le_weak.
Qed.

Lemma ToInt16_small (q : Q) :
  (-32768 <= truncate q <= 32767)%Z -> ToInt16 (Fin q) = truncate q.
Proof.
  intros H. cbn [ToInt16].
  destruct (Z.leb_spec 32768 (truncate q mod 65536)) as [L|L];
    Z.div_mod_to_equations; lia.
Qed.

Lemma ToInt16_range (x : num) : (-32768 <= ToInt16 x <= 32767)%Z.
Proof.
  destruct x as [| | |q]; cbn [ToInt16]; try lia.
  pose proof (Z.mod_pos_bound (truncate q) 65536 eq_refl).
  destruct (Z.leb_spec 32768 (truncate q mod 65536)); lia.
Qed.

Lemma clamp_range (q : Q) : -1 <= Aux.clamp q <= 1.
Proof.
  unfold Aux.clamp.
  destruct (Qle_bool 1 q) eqn:E1.
  - cbn. lra.
  - destruct (Qle_bool (-1) q) eqn:E2.
    + apply Qle_bool_iff in E2. apply Qle_bool_false in E1. lra.
    + lra.
Qed.

Lemma clamp_id (q : Q) : -1 <= q <= 1 -> Aux.clamp q == q.
Proof.
  intros [L U]. unfold Aux.clamp.
  destruct (Qle_bool 1 q) eqn:E1.
  - apply Qle_bool_iff in E1. cbn. lra.
  - apply Qle_bool_iff in L. rewrite L. reflexivity.
Qed.

Lemma clamp_high (q : Q) : 1 <= q -> Aux.clamp q = 1.
Proof.
  intros H. unfold Aux.clamp. apply Qle_bool_iff in H. now rewrite H.
Qed.

Lemma clamp_low (q : Q) : q <= -1 -> Aux.clamp q = -1 \/ Aux.clamp q = q /\ q == -1.
Proof.
  intros H. unfold Aux.clamp.
  destruct (Qle_bool 1 q) eqn:E1.
  - apply Qle_bool_iff in E1. lra.
  - destruct (Qle_bool (-1) q) eqn:E2.
    + apply Qle_bool_iff in E2. right. split; [reflexivity | lra].
    + now left.
Qed.

(** The value stored for a finite sample, without the optional chain of
    non-finite cases. *)
Lemma scaled_Fin (q : Q) :
  scaled (Fin q) = Fin (Aux.clamp q * Aux.scale (Aux.clamp q)).
Proof.
  unfold scaled, Aux.clamp, Aux.scale, is_neg. cbn [min].
  destruct (Qle_bool 1 q); cbn [max];
    match goal with |- context [Qle_bool (-1) ?m] =>
      destruct (Qle_bool (-1) m) end;
    cbn [lt];
    match goal with |- context [Qle_bool 0 ?m] =>
      destruct (Qle_bool 0 m) end; reflexivity.
Qed.

Lemma scaled_bounds (q : Q) :
  inject_Z (-32768) <= Aux.clamp q * Aux.scale (Aux.clamp q)
  /\ Aux.clamp q * Aux.scale (Aux.clamp q) <= inject_Z 32767.
Proof.
  pose proof (clamp_range q) as [L U].
  unfold Aux.scale, is_neg.
  change (inject_Z (-32768)) with (-32768). change (inject_Z 32767) with 32767.
  destruct (Qle_bool 0 (Aux.clamp q)) eqn:E; cbn [negb].
  - apply Qle_bool_iff in E. lra.
  - apply Qle_bool_false in E. lra.
Qed.

(** No wrap-around happens: the stored integer is the truncated product. *)
Lemma sample16_Fin (q : Q) :
  sample16 (Fin q) = truncate (Aux.clamp q * Aux.scale (Aux.clamp q)).
Proof.
  unfold sample16. rewrite scaled_Fin. apply ToInt16_small.
  destruct (scaled_bounds q) as [L U].
  apply truncate_bounds; (assumption || lia).
Qed.

Lemma sample16_nonfinite :
  sample16 NaN = 0%Z /\ sample16 PosInf = 32767%Z /\ sample16 NegInf = (-32768)%Z.
Proof. repeat split; vm_compute; reflexivity. Qed.

Lemma firstn_length_app {A} (pre rest : list A) :
  firstn (List.length pre) (pre ++ rest) = pre.
Proof.
  rewrite firstn_app, Nat.sub_diag, firstn_all. cbn. apply app_nil_r.
Qed.

Lemma skipn_length_app {A} (pre mid rest : list A) :
  skipn (List.length pre + List.length mid) (pre ++ mid ++ rest) = rest.
Proof.
  rewrite app_assoc, <- length_app. rewrite skipn_app, Nat.sub_diag.
  rewrite skipn_all. reflexivity.
Qed.

Lemma pcm_loop_app (samples : list num) (pre : list byte) :
  pcm_loop samples (List.length pre) (pre ++ alloc (List.length samples * 2))
  = Some (pre ++ flat_map (fun x => int16_le (sample16 x)) samples).
Proof.
  revert pre. induction samples as [|x rest IH]; intros pre.
  - cbn. reflexivity.
  - cbn [pcm_loop List.length Nat.mul Nat.add alloc repeat].
    unfold setInt16.
    assert (E : (List.length pre + 2 <=?
                 List.length (pre ++ x00 :: x00 :: repeat x00 (List.length rest * 2)))%nat
                = true).
    { apply Nat.leb_le. rewrite length_app. cbn. lia. }
    rewrite E.
    rewrite firstn_length_app.
    change (x00 :: x00 :: repeat x00 (List.length rest * 2))
      with ([x00; x00] ++ alloc (List.length rest * 2)).
    rewrite (skipn_length_app pre [x00; x00]).
    specialize (IH (pre ++ int16_le (ToInt16 (scaled x)))).
    rewrite length_app in IH. cbn [int16_le List.length] in IH.
    rewrite <- app_assoc in IH. rewrite IH.
    cbn [flat_map]. rewrite <- app_assoc. reflexivity.
Qed.

Lemma floatTo16BitPCM_flat_map (samples : list num) :
  floatTo16BitPCM samples
  = Some (flat_map (fun x => int16_le (sample16 x)) samples).
Proof.
  unfold floatTo16BitPCM. apply (pcm_loop_app samples []).
Qed.

Lemma Z_of_byte_of_Z (z : Z) : Z_of_byte (byte_of_Z z) = (z mod 256)%Z.
Proof.
  unfold Z_of_byte, byte_of_Z.
  pose proof (Z.mod_pos_bound z 256 eq_refl) as B.
  destruct (Byte.of_N (Z.to_N (z mod 256))) as [b|] eqn:E.
  - apply Byte.to_of_N in E. rewrite E. apply Z2N.id. lia.
  - apply Byte.of_N_None_iff in E. lia.
Qed.

Lemma Z_of_byte_range (b : byte) : (0 <= Z_of_byte b < 256)%Z.
Proof.
  unfold Z_of_byte. pose proof (Byte.to_N_bounded b). lia.
Qed.

Lemma getInt16_at (pre rest : list byte) (lo hi : byte) :
  getInt16 (pre ++ lo :: hi :: rest) (List.length pre)
  = Some (let u := (Z_of_byte lo + 256 * Z_of_byte hi)%Z in
          if (32768 <=? u)%Z then (u - 65536)%Z else u).
Proof.
  unfold getInt16.
  rewrite nth_error_app2 by lia. rewrite Nat.sub_diag. cbn [nth_error].
  rewrite nth_error_app2 by lia.
  replace (List.length pre + 1 - List.length pre)%nat with 1%nat by lia.
  reflexivity.
Qed.

(** Little-endian storage: reading back the two bytes of a 16-bit integer
    returns it. *)
Lemma getInt16_int16_le (pre rest : list byte) (v : Z) :
  (-32768 <= v <= 32767)%Z ->
  getInt16 (pre ++ int16_le v ++ rest) (List.length pre) = Some v.
Proof.
  intros H. unfold int16_le. cbn [app]. rewrite getInt16_at.
  rewrite !Z_of_byte_of_Z. cbv zeta. f_equal.
  destruct (Z.leb_spec 32768 (v mod 256 + 256 * ((v / 256) mod 256)));
    Z.div_mod_to_equations; lia.
Qed.

Lemma decode_loop_encoded (samples : list num) (pre tail : list byte) (i : nat) :
  List.length pre = (i * 2)%nat ->
  decode_loop (pre ++ flat_map (fun x => int16_le (sample16 x)) samples ++ tail)
              i (List.length samples)
  = Some (map (fun x => Aux.dequantize (sample16 x)) samples).
Proof.
  revert pre i. induction samples as [|x rest IH]; intros pre i Hpre.
  - reflexivity.
  - cbn [List.length decode_loop flat_map].
    rewrite <- Hpre, <- app_assoc.
    rewrite getInt16_int16_le by apply ToInt16_range.
    specialize (IH (pre ++ int16_le (sample16 x)) (S i)).
    rewrite <- app_assoc in IH. rewrite IH.
    + reflexivity.
    + rewrite length_app. cbn. lia.
Qed.

Lemma flat_map_int16_length (samples : list num) :
  List.length (flat_map (fun x => int16_le (sample16 x)) samples)
  = (2 * List.length samples)%nat.
Proof.
  induction samples as [|x rest IH]; cbn [flat_map List.length app int16_le].
  - reflexivity.
  - rewrite IH. lia.
Qed.

Lemma decodePCM_encoded (samples : list num) :
  decodePCM (flat_map (fun x => int16_le (sample16 x)) samples)
  = Some (map (fun x => Aux.dequantize (sample16 x)) samples).
Proof.
  unfold decodePCM. rewrite flat_map_int16_length.
  replace (2 * List.length samples / 2)%nat with (List.length samples)
    by (rewrite Nat.mul_comm, Nat.div_mul; lia).
  pose proof (decode_loop_encoded samples [] [] 0 eq_refl) as H.
  cbn [app] in H. rewrite app_nil_r in H. exact H.
Qed.

(** The inbound loop never reads outside the buffer. *)
Lemma decode_loop_total (bytes : list byte) (count i : nat) :
  ((i + count) * 2 <= List.length bytes)%nat ->
  exists samples, decode_loop bytes i count = Some samples
                  /\ List.length samples = count.
Proof.
  revert i. induction count as [|count IH]; intros i H.
  - exists []. split; reflexivity.
  - cbn [decode_loop]. unfold getInt16.
    destruct (nth_error bytes (i * 2)) as [lo|] eqn:E1.
    2:{ apply nth_error_None in E1. lia. }
    destruct (nth_error bytes (i * 2 + 1)) as [hi|] eqn:E2.
    2:{ apply nth_error_None in E2. lia. }
    destruct (IH (S i)) as [rest [E L]]; [lia|].
    rewrite E. eexists. split; [reflexivity|]. cbn. now rewrite L.
Qed.

Lemma decodePCM_total (bytes : list byte) :
  exists samples, decodePCM bytes = Some samples
                  /\ List.length samples = (List.length bytes / 2)%nat.
Proof.
  unfold decodePCM. apply decode_loop_total.
  cbn [Nat.add]. pose proof (Nat.div_mod_eq (List.length bytes) 2). lia.
Qed.

Lemma dequantize_mul (v : Z) : Aux.dequantize v == inject_Z v * (1 # 32768).
Proof. reflexivity. Qed.

(** Quantisation error of one sample in range. *)
Lemma quantize_error_nonneg (q : Q) :
  0 <= q -> q <= 1 ->
  0 <= q - Aux.dequantize (sample16 (Fin q))
  /\ q - Aux.dequantize (sample16 (Fin q)) < 1 # 16384.
Proof.
  intros L U. rewrite sample16_Fin.
  assert (C : Aux.clamp q == q) by (apply clamp_id; lra).
  set (c := Aux.clamp q) in *.
  assert (S : Aux.scale c = 32767).
  { unfold Aux.scale, is_neg.
    assert (E : Qle_bool 0 c = true) by (apply Qle_bool_iff; lra).
    now rewrite E. }
  rewrite S. rewrite truncate_nonneg by lra.
  pose proof (Qfloor_le (c * 32767)) as F1.
  pose proof (Qlt_floor (c * 32767)) as F2.
  rewrite inject_Z_plus in F2. change (inject_Z 1) with 1 in F2.
  rewrite dequantize_mul.
  set (v := inject_Z (Qfloor (c * 32767))) in *.
  split; lra.
Qed.

Lemma quantize_error_neg (q : Q) :
  -1 <= q -> q < 0 ->
  0 <= Aux.dequantize (sample16 (Fin q)) - q
  /\ Aux.dequantize (sample16 (Fin q)) - q < 1 # 32768.
Proof.
  intros L U. rewrite sample16_Fin.
  assert (C : Aux.clamp q == q) by (apply clamp_id; lra).
  set (c := Aux.clamp q) in *.
  assert (S : Aux.scale c = 32768).
  { unfold Aux.scale, is_neg.
    destruct (Qle_bool 0 c) eqn:E; [|reflexivity].
    apply Qle_bool_iff in E. lra. }
  rewrite S. rewrite truncate_neg by lra.
  pose proof (Qle_ceiling (c * 32768)) as F1.
  pose proof (Qceiling_lt (c * 32768)) as F2.
  unfold Z.sub in F2. rewrite inject_Z_plus in F2.
  change (inject_Z (- (1))) with (-1 # 1) in F2.
  rewrite dequantize_mul.
  set (v := inject_Z (Qceiling (c * 32768))) in *.
  split; lra.
Qed.

Lemma sample16_clamped_high (q : Q) : 1 <= q -> sample16 (Fin q) = 32767%Z.
Proof.
  intros H. rewrite sample16_Fin, (clamp_high q H). reflexivity.
Qed.

Lemma sample16_clamped_low (q : Q) : q <= -1 -> sample16 (Fin q) = (-32768)%Z.
Proof.
  intros H. rewrite sample16_Fin.
  destruct (clamp_low q H) as [E | [E Q1]]; rewrite E.
  - reflexivity.
  - assert (S : Aux.scale q = 32768).
    { unfold Aux.scale, is_neg.
      destruct (Qle_bool 0 q) eqn:B; [|reflexivity].
      apply Qle_bool_iff in B. lra. }
    rewrite S, truncate_neg by lra.
    assert (P : q * 32768 == inject_Z (-32768)).
    { rewrite Q1. reflexivity. }
    rewrite P. apply Qceiling_Z.
Qed.

Lemma getInt16_encoded (samples : list num) (i : nat) (x : num) :
  nth_error samples i = Some x ->
  getInt16 (flat_map (fun y => int16_le (sample16 y)) samples) (2 * i)
  = Some (sample16 x).
Proof.
  intros H. apply nth_error_split in H. destruct H as [pre [rest [E L]]].
  subst samples. rewrite flat_map_app. cbn [flat_map].
  rewrite <- L, <- flat_map_int16_length.
  apply getInt16_int16_le, ToInt16_range.
Qed.

End PcmFacts.

(** C6, as the code has it.  Every sample is clamped to [-1, 1] and
    multiplied by 32767 when the clamped value is non-negative and by 32768
    when it is negative; the product is truncated toward zero (not rounded
    away from it) and stored as a signed 16-bit little-endian integer.  NaN
    is stored as 0.  The encoder is a total function. *)
Theorem C6_encode_truncates_toward_zero (samples : list JS.num) (q : Q) :
  Pcm.floatTo16BitPCM samples
    = Some (flat_map (fun x => Buf.int16_le (Pcm.sample16 x)) samples)
  /\ Pcm.sample16 (JS.Fin q)
     = JS.truncate (Aux.clamp q * Aux.scale (Aux.clamp q))
  /\ (-1 <= Aux.clamp q /\ Aux.clamp q <= 1)
  /\ Pcm.sample16 JS.NaN = 0%Z
  /\ (forall i x, nth_error samples i = Some x ->
        Buf.getInt16
          (flat_map (fun y => Buf.int16_le (Pcm.sample16 y)) samples) (2 * i)
        = Some (Pcm.sample16 x)).
Proof.
  split; [apply floatTo16BitPCM_flat_map|].
  split; [apply sample16_Fin|].
  split; [apply clamp_range|].
  split; [reflexivity|].
  intros i x. apply getInt16_encoded.
Qed.

(** C6, the rounding as worded: the sample one half scales to 16383.5,
    which the code stores as 16383 while rounding toward the sample's sign
    gives 16384. *)
Lemma C6_rounding_counterexample :
  Pcm.sample16 (JS.Fin (1 # 2)) = 16383%Z
  /\ Aux.encode16_to_sign (1 # 2) = 16384%Z
  /\ Pcm.sample16 (JS.Fin (1 # 2)) <> Aux.encode16_to_sign (1 # 2).
Proof.
  repeat split; try (vm_compute; reflexivity).
  vm_compute. discriminate.
Qed.

(** C9.  For every array of [n] samples, finite or not, in range or not,
    the encoder returns a buffer of [2 * n] bytes; the integer stored for
    each sample lies in [-32768, 32767]; a sample at or above 1 is stored as
    32767 and one at or below -1 as -32768. *)
Theorem C9_encode_total_length_range (samples : list JS.num) :
  exists bytes,
    Pcm.floatTo16BitPCM samples = Some bytes
    /\ List.length bytes = (2 * List.length samples)%nat
    /\ (forall i x, nth_error samples i = Some x ->
          Buf.getInt16 bytes (2 * i) = Some (Pcm.sample16 x)
          /\ (-32768 <= Pcm.sample16 x <= 32767)%Z)
    /\ (forall q, 1 <= q -> Pcm.sample16 (JS.Fin q) = 32767%Z)
    /\ (forall q, q <= -1 -> Pcm.sample16 (JS.Fin q) = (-32768)%Z).
Proof.
  eexists. split; [apply floatTo16BitPCM_flat_map|].
  split; [apply flat_map_int16_length|].
  split.
  - intros i x H. split; [now apply getInt16_encoded | apply ToInt16_range].
  - split; [apply sample16_clamped_high | apply sample16_clamped_low].
Qed.

(** C7, as the code has it.  For samples in [-1, 1] the round trip keeps
    the length, and each result differs from the original by less than
    2/32768; for a negative sample by less than 1/32768. *)
Theorem C7_roundtrip_within_two_steps (s : list Q) :
  Forall Aux.in_unit_range s ->
  exists out,
    Aux.pcm_roundtrip s = Some out
    /\ List.length out = List.length s
    /\ Forall2 (fun q d => Qabs (q - d) < 1 # 16384
                           /\ (q < 0 -> Qabs (q - d) < 1 # 32768)) s out.
Proof.
  intros H. unfold Aux.pcm_roundtrip.
  rewrite floatTo16BitPCM_flat_map, decodePCM_encoded.
  eexists. split; [reflexivity|].
  split; [now rewrite !length_map|].
  rewrite map_map.
  induction H as [|q s [L U] Hs IH]; cbn [map]; constructor; [|exact IH].
  destruct (Qlt_le_dec q 0) as [N|P].
  - destruct (quantize_error_neg q L N) as [A B].
    assert (E : Qabs (q - Aux.dequantize (Pcm.sample16 (JS.Fin q))) < 1 # 32768).
    { apply Qabs_Qlt_condition. split; lra. }
    split; [lra | intros _; exact E].
  - destruct (quantize_error_nonneg q P U) as [A B].
    split; [apply Qabs_Qlt_condition; split; lra | intros N; lra].
Qed.

Lemma C7_roundtrip_witness :
  exists out,
    Aux.pcm_roundtrip [1 # 2; -1 # 4] = Some out
    /\ List.length out = 2%nat
    /\ Forall2 (fun q d => Qabs (q - d) < 1 # 16384
                           /\ (q < 0 -> Qabs (q - d) < 1 # 32768))
               [1 # 2; -1 # 4] out.
Proof.
  apply (C7_roundtrip_within_two_steps [1 # 2; -1 # 4]).
  repeat constructor; unfold Qle; simpl; lia.
Defined.

(** C7, the bound as worded: the sample 65535/65536 lies in [-1, 1], is
    stored as 32766 and comes back as 32766/32768, which is 3/65536 away
    from it, more than 1/32768. *)
Lemma C7_bound_counterexample :
  Aux.in_unit_range (65535 # 65536)
  /\ Aux.pcm_roundtrip [65535 # 65536] = Some [Aux.dequantize 32766]
  /\ ~ Qabs ((65535 # 65536) - Aux.dequantize 32766) <= 1 # 32768.
Proof.
  split; [split; unfold Qle; simpl; lia|].
  split; [vm_compute; reflexivity|].
  vm_compute. intros H. apply H. reflexivity.
Qed.

(** ** Base64 transport *)

Section Base64Facts.

Import Base64.
Local Open Scope N_scope.

Lemma below_64 (P : N -> bool) :
  forallb P (map N.of_nat (seq 0 64)) = true ->
  forall k, k < 64 -> P k = true.
Proof.
  intros H k Hk. rewrite forallb_forall in H. apply H.
  apply in_map_iff. exists (N.to_nat k). split.
  - apply N2Nat.id.
  - apply in_seq. lia.
Qed.

Lemma b64_index_char (k : N) : k < 64 -> b64_index (b64_char k) = Some k.
Proof.
  intros H.
  pose proof (below_64
    (fun i => match b64_index (b64_char i) with
              | Some j => N.eqb j i
              | None => false
              end) eq_refl k H) as E.
  cbv beta in E. destruct (b64_index (b64_char k)) as [j|]; [|discriminate].
  apply N.eqb_eq in E. now subst.
Qed.

Lemma b64_char_not_whitespace (k : N) :
  k < 64 -> is_ascii_whitespace (b64_char k) = false.
Proof.
  intros H.
  pose proof (below_64 (fun i => negb (is_ascii_whitespace (b64_char i)))
                eq_refl k H) as E.
  cbv beta in E. now apply negb_true_iff in E.
Qed.

Lemma b64_char_not_pad (k : N) : k < 64 -> (b64_char k =? "=")%char = false.
Proof.
  intros H.
  pose proof (below_64 (fun i => negb (b64_char i =? "=")%char)
                eq_refl k H) as E.
  cbv beta in E. now apply negb_true_iff in E.
Qed.

(** Induction over a list three elements at a time. *)
Lemma list_ind3 {A} (P : list A -> Prop) :
  P [] -> (forall a, P [a]) -> (forall a b, P [a; b]) ->
  (forall a b c rest, P rest -> P (a :: b :: c :: rest)) ->
  forall l, P l.
Proof.
  intros H0 H1 H2 H3 l.
  assert (G : P l /\ (forall a, P (a :: l)) /\ (forall a b, P (a :: b :: l))).
  { induction l as [|x l [IH0 [IH1 IH2]]].
    - auto.
    - repeat split; auto. }
  apply G.
Qed.

Ltac euclid := zify; Z.to_euclidean_division_equations; lia.

Lemma sextets_below_64 (l : list N) :
  Aux.byte_sized l -> Forall (fun k => k < 64) (sextets l).
Proof.
  unfold Aux.byte_sized.
  induction l as [| a | a b | a b c rest IH] using list_ind3; intros H;
    cbn [sextets].
  - constructor.
  - inversion_clear H.
    repeat (apply Forall_cons; [euclid|]). constructor.
  - inversion_clear H as [|? ? Ha H']. inversion_clear H' as [|? ? Hb _].
    repeat (apply Forall_cons; [euclid|]). constructor.
  - inversion_clear H as [|? ? Ha H']. inversion_clear H' as [|? ? Hb H''].
    inversion_clear H'' as [|? ? Hc Hr].
    repeat (apply Forall_cons; [euclid|]).
    now apply IH.
Qed.

(** Regrouping the 6-bit groups gives the bytes back. *)
Lemma octets_sextets (l : list N) :
  Aux.byte_sized l -> octets (sextets l) = l.
Proof.
  unfold Aux.byte_sized.
  induction l as [| a | a b | a b c rest IH] using list_ind3; intros H;
    cbn [sextets octets].
  - reflexivity.
  - inversion_clear H. f_equal. euclid.
  - inversion_clear H as [|? ? Ha H']. inversion_clear H' as [|? ? Hb _].
    f_equal; [euclid|]. f_equal. euclid.
  - inversion_clear H as [|? ? Ha H']. inversion_clear H' as [|? ? Hb H''].
    inversion_clear H'' as [|? ? Hc Hr].
    rewrite (IH Hr).
    f_equal; [euclid|]. f_equal; [euclid|]. f_equal. euclid.
Qed.

Lemma mod_add4 (n : nat) : (S (S (S (S n))) mod 4 = n mod 4)%nat.
Proof.
  replace (S (S (S (S n)))) with (n + 1 * 4)%nat by lia.
  apply Nat.Div0.mod_add.
Qed.

Lemma mod_add3 (n : nat) : (S (S (S n)) mod 3 = n mod 3)%nat.
Proof.
  replace (S (S (S n))) with (n + 1 * 3)%nat by lia.
  apply Nat.Div0.mod_add.
Qed.

(** The text produced by [btoa] has a length that is a multiple of four,
    and its unpadded part never has a length congruent to 1 modulo 4. *)
Lemma sextets_length (l : list N) :
  ((List.length (sextets l) + List.length (padding (List.length l))) mod 4 = 0
   /\ List.length (sextets l) mod 4 <> 1)%nat.
Proof.
  induction l as [| a | a b | a b c rest IH] using list_ind3;
    cbn [sextets List.length]; try (cbn; split; [reflexivity | discriminate]).
  unfold padding in *. rewrite mod_add3.
  cbn [Nat.add]. rewrite !mod_add4. exact IH.
Qed.

Lemma indices_chars (ks : list N) :
  Forall (fun k => k < 64) ks -> indices (map b64_char ks) = Some ks.
Proof.
  induction 1 as [|k ks Hk _ IH]; cbn [map indices].
  - reflexivity.
  - now rewrite (b64_index_char k Hk), IH.
Qed.

Lemma filter_all {A} (f : A -> bool) (l : list A) :
  Forall (fun a => f a = true) l -> filter f l = l.
Proof.
  induction 1 as [|a l Ha _ IH]; cbn [filter].
  - reflexivity.
  - now rewrite Ha, IH.
Qed.

Lemma padding_cases (n : nat) :
  padding n = [] \/ padding n = ["="%char] \/ padding n = ["="%char; "="%char].
Proof.
  unfold padding. destruct (n mod 3)%nat as [|[|[|?]]]; auto.
Qed.

Lemma rev_head_in {A} (l : list A) (c : A) (r : list A) :
  rev l = c :: r -> In c l.
Proof.
  intros H. apply in_rev. rewrite H. now left.
Qed.

Lemma strip_padding_rev (rb : list ascii) (n : nat) :
  (forall c r, rb = c :: r -> (c =? "=")%char = false) ->
  (List.length (rev rb ++ padding n) mod 4 = 0)%nat ->
  strip_padding (rev rb ++ padding n) = rev rb.
Proof.
  intros body Hlen. unfold strip_padding.
  rewrite Hlen. cbn [Nat.eqb].
  rewrite rev_app_distr, rev_involutive.
  destruct (padding_cases n) as [E | [E | E]]; rewrite E; cbn [rev app].
  - destruct rb as [|c r]; [reflexivity|].
    rewrite (body c r eq_refl). apply app_nil_r.
  - destruct rb as [|c r]; [reflexivity|].
    cbn [Ascii.eqb Bool.eqb]. now rewrite (body c r eq_refl).
  - reflexivity.
Qed.

(** Stripping removes exactly the padding that [btoa] appended. *)
Lemma strip_padding_btoa (ks : list N) (n : nat) :
  Forall (fun k => k < 64) ks ->
  ((List.length ks + List.length (padding n)) mod 4 = 0)%nat ->
  strip_padding (map b64_char ks ++ padding n) = map b64_char ks.
Proof.
  intros Hks Hlen.
  rewrite <- (rev_involutive (map b64_char ks)).
  apply strip_padding_rev.
  - intros c r E. apply rev_head_in in E. apply in_map_iff in E.
    destruct E as [k [<- Hin]]. apply b64_char_not_pad.
    rewrite Forall_forall in Hks. now apply Hks.
  - now rewrite rev_involutive, length_app, length_map.
Qed.

Lemma padding_not_whitespace (n : nat) :
  Forall (fun c => negb (is_ascii_whitespace c) = true) (padding n).
Proof.
  destruct (padding_cases n) as [E | [E | E]]; rewrite E;
    repeat constructor.
Qed.

Lemma codes_byte_sized (l : list ascii) : Aux.byte_sized (map N_of_ascii l).
Proof.
  unfold Aux.byte_sized. apply Forall_map, Forall_forall.
  intros c _. apply N_ascii_bounded.
Qed.

(** [atob] undoes [btoa] on every binary string. *)
Lemma atob_btoa (binary : string) : atob (btoa binary) = Some binary.
Proof.
  unfold atob, btoa.
  set (codes := map N_of_ascii (list_ascii_of_string binary)).
  pose proof (codes_byte_sized (list_ascii_of_string binary)) as Hb.
  fold codes in Hb.
  pose proof (sextets_below_64 codes Hb) as Hs.
  destruct (sextets_length codes) as [L4 L1].
  rewrite list_ascii_of_string_of_list_ascii.
  rewrite filter_all.
  2:{ apply Forall_app. split; [|apply padding_not_whitespace].
      apply Forall_map. revert Hs. apply Forall_impl. intros k Hk.
      now rewrite b64_char_not_whitespace. }
  rewrite strip_padding_btoa by assumption.
  rewrite length_map.
  destruct (Nat.eqb_spec (List.length (sextets codes) mod 4) 1) as [E|_];
    [contradiction|].
  rewrite indices_chars by assumption.
  rewrite octets_sextets by assumption.
  unfold codes. rewrite map_map.
  rewrite (map_ext _ (fun c => c)) by apply ascii_N_embedding.
  rewrite map_id. now rewrite string_of_list_ascii_of_string.
Qed.

Lemma list_ascii_of_string_app (s t : string) :
  list_ascii_of_string (s ++ t)
  = list_ascii_of_string s ++ list_ascii_of_string t.
Proof.
  induction s as [|c s IH]; cbn.
  - reflexivity.
  - now rewrite IH.
Qed.

Lemma binaryOfBytes_chars (bytes : list byte) :
  list_ascii_of_string (binaryOfBytes bytes) = map fromCharCode bytes.
Proof.
  unfold binaryOfBytes.
  enough (G : forall acc,
             list_ascii_of_string
               (fold_left
                  (fun binary b =>
                     (binary ++ String (fromCharCode b) EmptyString)%string)
                  bytes acc)
             = list_ascii_of_string acc ++ map fromCharCode bytes)
    by apply (G EmptyString).
  induction bytes as [|b rest IH]; intros acc; cbn [fold_left map].
  - now rewrite app_nil_r.
  - rewrite IH, list_ascii_of_string_app. cbn. now rewrite <- app_assoc.
Qed.

End Base64Facts.

(** C8.  Decoding the transport text of a byte sequence returns the byte
    sequence; the text is the standard base64 of the bytes, padded to a
    multiple of four characters and without any whitespace. *)
Theorem C8_base64_roundtrip (b : list byte) :
  Base64.base64ToUint8Array (Base64.toTransportText b) = Some b
  /\ (List.length (list_ascii_of_string (Base64.toTransportText b)) mod 4 = 0)%nat
  /\ Forall (fun c => Base64.is_ascii_whitespace c = false)
            (list_ascii_of_string (Base64.toTransportText b)).
Proof.
  unfold Base64.base64ToUint8Array, Base64.toTransportText.
  split; [|split].
  - rewrite atob_btoa, binaryOfBytes_chars, map_map.
    rewrite (map_ext _ (fun x => x)) by apply byte_of_ascii_of_byte.
    now rewrite map_id.
  - unfold Base64.btoa. rewrite list_ascii_of_string_of_list_ascii.
    rewrite length_app, length_map. apply sextets_length.
  - unfold Base64.btoa. rewrite list_ascii_of_string_of_list_ascii.
    apply Forall_app. split.
    + apply Forall_map.
      pose proof (sextets_below_64 _
        (codes_byte_sized (list_ascii_of_string (Base64.binaryOfBytes b)))) as Hs.
      revert Hs. apply Forall_impl. intros k Hk.
      now apply b64_char_not_whitespace.
    + generalize (padding_not_whitespace
        (List.length (map N_of_ascii
           (list_ascii_of_string (Base64.binaryOfBytes b))))).
      apply Forall_impl. intros c Hc. now apply negb_true_iff in Hc.
Qed.

(** ** Playback scheduling *)

Section LiveFacts.

Import Live.

Lemma later_ge_r (a b : Q) : b <= later a b.
Proof.
  unfold later. destruct (Qle_bool a b) eqn:E.
  - apply Qle_refl.
  - apply Qle_bool_false in E. now apply Qlt_le_weak.
Qed.

Lemma later_ge_l (a b : Q) : a <= later a b.
Proof.
  unfold later. destruct (Qle_bool a b) eqn:E.
  - now apply Qle_bool_iff.
  - apply Qle_refl.
Qed.

Lemma later_behind (a b : Q) : a <= b -> later a b = b.
Proof.
  intros H. unfold later. apply Qle_bool_iff in H. now rewrite H.
Qed.

Lemma duration_nonneg (frames : nat) : 0 <= duration frames.
Proof.
  unfold duration, sampleRate.
  apply Qle_shift_div_l; [reflexivity|].
  rewrite Qmult_0_l. change 0 with (inject_Z 0).
  rewrite <- Zle_Qle. lia.
Qed.

(** What [onmessage] does with a payload that decodes to [bytes]. *)
Lemma onmessage_decoded (h : hook) (ctx : nat) (now : Q) (data : string)
    (bytes : list byte) :
  audioContextRef h = Some ctx ->
  truthy data = true ->
  Base64.base64ToUint8Array data = Some bytes ->
  onmessage now (Some data) h
  = match Aux.frames_of bytes with
    | O =>
        (Throw "NotSupportedError",
         mkHook (isConnected h) true (error h) (logs h) (audioContextRef h)
           (inputSourceRef h) (processorRef h) (sessionRef h)
           (nextStartTimeRef h) (videoIntervalRef h) (videoRef h)
           (trace h) (fresh h))
    | S n =>
        (Ok tt,
         mkHook (isConnected h) true (error h) (logs h) (audioContextRef h)
           (inputSourceRef h) (processorRef h) (sessionRef h)
           (later now (nextStartTimeRef h) + duration (S n))%Q
           (videoIntervalRef h) (videoRef h)
           (trace h ++ [SourceStart ctx (later now (nextStartTimeRef h)) (S n)])
           (fresh h))
    end.
Proof.
  intros Hctx Ht Hb. unfold onmessage. rewrite Ht.
  destruct (decodePCM_total bytes) as [samples [Hs Hl]].
  unfold bind, setIsSpeaking, modify, gets. cbn [audioContextRef].
  rewrite Hctx, Hb. unfold ret at 1. cbn iota beta. rewrite Hs.
  unfold ret at 1. cbn iota beta. rewrite Hl. unfold Aux.frames_of.
  destruct (List.length bytes / 2)%nat as [|n]; reflexivity.
Qed.

Lemma onmessage_cursor_monotone (now : Q) (audioData : option string) (h : hook) :
  nextStartTimeRef h <= nextStartTimeRef (snd (onmessage now audioData h)).
Proof.
  destruct audioData as [data|]; [|apply Qle_refl].
  destruct (truthy data) eqn:Ht; [|unfold onmessage; rewrite Ht; apply Qle_refl].
  destruct (audioContextRef h) as [ctx|] eqn:Hctx.
  - destruct (Base64.base64ToUint8Array data) as [bytes|] eqn:Hb.
    + rewrite (onmessage_decoded h ctx now data bytes Hctx Ht Hb).
      destruct (Aux.frames_of bytes) as [|n]; cbn [snd nextStartTimeRef].
      * apply Qle_refl.
      * pose proof (later_ge_r now (nextStartTimeRef h)).
        pose proof (duration_nonneg (S n)). lra.
    + unfold onmessage. rewrite Ht.
      unfold bind, setIsSpeaking, modify, gets. cbn [audioContextRef].
      rewrite Hctx, Hb. cbn. apply Qle_refl.
  - unfold onmessage. rewrite Ht.
    unfold bind, setIsSpeaking, modify, gets. cbn [audioContextRef].
    rewrite Hctx. cbn. apply Qle_refl.
Qed.

Lemma connect_cursor (role : string) (env : environment) (h : hook) :
  nextStartTimeRef (snd (connect role env h)) = nextStartTimeRef h.
Proof.
  destruct h as [? ? ? ? ? ? ? ? ? ? video ? ?].
  unfold connect, try_catch, bind, getUserMedia.
  destruct (API_KEY env) as [k|]; [destruct (truthy k)|];
    destruct (userMedia env); destruct video; reflexivity.
Qed.

Lemma connect_isSpeaking (role : string) (env : environment) (h : hook) :
  isSpeaking (snd (connect role env h)) = isSpeaking h.
Proof.
  destruct h as [? ? ? ? ? ? ? ? ? ? video ? ?].
  unfold connect, try_catch, bind, getUserMedia.
  destruct (API_KEY env) as [k|]; [destruct (truthy k)|];
    destruct (userMedia env); destruct video; reflexivity.
Qed.

Lemma onaudioprocess_state (session : nat) (inputData : list JS.num) (h : hook) :
  nextStartTimeRef (snd (onaudioprocess session inputData h)) = nextStartTimeRef h
  /\ isSpeaking (snd (onaudioprocess session inputData h)) = isSpeaking h.
Proof.
  unfold onaudioprocess. rewrite floatTo16BitPCM_flat_map. split; reflexivity.
Qed.

Lemma onended_cursor (now : Q) (h : hook) :
  nextStartTimeRef (snd (onended now h)) = nextStartTimeRef h.
Proof.
  unfold onended, bind, gets.
  destruct (Qle_bool (nextStartTimeRef h) now); reflexivity.
Qed.

(** The cursor never moves backwards, except in [disconnect]. *)
Lemma cursor_step_monotone (now : Q) (ev : event) (h : hook) :
  ev <> Disconnect ->
  nextStartTimeRef h <= nextStartTimeRef (step now ev h).
Proof.
  intros Hev. unfold step.
  destruct ev; cbn [handler]; try apply Qle_refl.
  - rewrite connect_cursor. apply Qle_refl.
  - rewrite (proj1 (onaudioprocess_state _ _ _)). apply Qle_refl.
  - apply onmessage_cursor_monotone.
  - rewrite onended_cursor. apply Qle_refl.
  - congruence.
Qed.

Lemma step_message_segment (h : hook) (ctx : nat) (now : Q) (data : string)
    (bytes : list byte) :
  audioContextRef h = Some ctx ->
  Aux.segment data bytes ->
  let h' := step now (Message (Some data)) h in
  nextStartTimeRef h'
    = (later now (nextStartTimeRef h) + duration (Aux.frames_of bytes))%Q
  /\ trace h'
     = trace h ++ [SourceStart ctx (later now (nextStartTimeRef h))
                               (Aux.frames_of bytes)]
  /\ audioContextRef h' = Some ctx
  /\ isSpeaking h' = true.
Proof.
  intros Hctx [Ht [Hb Hl]]. cbv zeta. unfold step. cbn [handler].
  rewrite (onmessage_decoded h ctx now data bytes Hctx Ht Hb).
  assert (F : Aux.frames_of bytes <> O).
  { unfold Aux.frames_of. intros E.
    apply Nat.div_small_iff in E; lia. }
  destruct (Aux.frames_of bytes) as [|n]; [congruence|].
  cbn. auto.
Qed.

Lemma starts_app (t u : list effect) : starts (t ++ u) = starts t ++ starts u.
Proof.
  induction t as [|e t IH]; [reflexivity|].
  destruct e; cbn [app starts]; rewrite IH; reflexivity.
Qed.

End LiveFacts.

(** C1.  A segment handed to the scheduler starts at the later of the
    clock reading and the cursor, and the cursor moves to that start plus
    the segment's duration.  Three segments, each arriving no later than
    the end of the audio scheduled before it, start at [t0], [t0 + d1] and
    [t0 + d1 + d2].  No event other than [disconnect] lowers the cursor. *)
Theorem C1_playback_sequential
    (h : Live.hook) (ctx : nat) (n1 n2 n3 : Q) (m1 m2 m3 : string)
    (b1 b2 b3 : list byte) :
  Live.audioContextRef h = Some ctx ->
  Aux.segment m1 b1 -> Aux.segment m2 b2 -> Aux.segment m3 b3 ->
  let d1 := Live.duration (Aux.frames_of b1) in
  let d2 := Live.duration (Aux.frames_of b2) in
  let d3 := Live.duration (Aux.frames_of b3) in
  let t0 := Live.later n1 (Live.nextStartTimeRef h) in
  n2 <= t0 + d1 -> n3 <= t0 + d1 + d2 ->
  let h1 := Live.step n1 (Live.Message (Some m1)) h in
  let h2 := Live.step n2 (Live.Message (Some m2)) h1 in
  let h3 := Live.step n3 (Live.Message (Some m3)) h2 in
  Live.trace h1 = Live.trace h ++ [Live.SourceStart ctx t0 (Aux.frames_of b1)]
  /\ Live.nextStartTimeRef h1 = t0 + d1
  /\ Live.starts (Live.trace h3)
     = Live.starts (Live.trace h) ++ [t0; t0 + d1; t0 + d1 + d2]
  /\ Live.nextStartTimeRef h3 = t0 + d1 + d2 + d3
  /\ (forall now ev g, ev <> Live.Disconnect ->
        Live.nextStartTimeRef g <= Live.nextStartTimeRef (Live.step now ev g)).
Proof.
  intros Hctx S1 S2 S3 d1 d2 d3 t0 A2 A3 h1 h2 h3.
  destruct (step_message_segment h ctx n1 m1 b1 Hctx S1) as [C1 [T1 [X1 _]]].
  fold h1 in C1, T1, X1. fold t0 in C1, T1. fold d1 in C1.
  destruct (step_message_segment h1 ctx n2 m2 b2 X1 S2) as [C2 [T2 [X2 _]]].
  fold h2 in C2, T2, X2. rewrite C1 in C2, T2.
  rewrite (later_behind n2 (t0 + d1) A2) in C2, T2. fold d2 in C2.
  destruct (step_message_segment h2 ctx n3 m3 b3 X2 S3) as [C3 [T3 _]].
  fold h3 in C3, T3. rewrite C2 in C3, T3.
  rewrite (later_behind n3 (t0 + d1 + d2) A3) in C3, T3. fold d3 in C3.
  split; [exact T1|]. split; [exact C1|].
  split; [|split; [exact C3|]].
  - rewrite T3, T2, T1, !starts_app. cbn [Live.starts app].
    now rewrite <- !app_assoc.
  - intros now ev g. apply cursor_step_monotone.
Qed.

Lemma C1_playback_witness :
  Live.starts
    (Live.trace
       (Live.run [(5, Live.Message (Some "AAA="%string));
                  (5, Live.Message (Some "AAAAAA=="%string));
                  (5, Live.Message (Some "AAA="%string))] Aux.active))
  = [Live.later 5 0;
     Live.later 5 0 + Live.duration 1;
     Live.later 5 0 + Live.duration 1 + Live.duration 2].
Proof.
  assert (S1 : Aux.segment "AAA=" [x00; x00]).
  { split; [reflexivity|]. split; [vm_compute; reflexivity | cbn; lia]. }
  assert (S2 : Aux.segment "AAAAAA==" [x00; x00; x00; x00]).
  { split; [reflexivity|]. split; [vm_compute; reflexivity | cbn; lia]. }
  assert (A2 : 5 <= Live.later 5 (Live.nextStartTimeRef Aux.active)
                    + Live.duration (Aux.frames_of [x00; x00])).
  { vm_compute. discriminate. }
  assert (A3 : 5 <= Live.later 5 (Live.nextStartTimeRef Aux.active)
                    + Live.duration (Aux.frames_of [x00; x00])
                    + Live.duration (Aux.frames_of [x00; x00; x00; x00])).
  { vm_compute. discriminate. }
  exact (proj1 (proj2 (proj2
           (C1_playback_sequential Aux.active 0 5 5 5 "AAA=" "AAAAAA==" "AAA="
              [x00; x00] [x00; x00; x00; x00] [x00; x00]
              eq_refl S1 S2 S1 A2 A3)))).
Defined.

(** ** Odd-length payloads *)

Section OddPayload.

Import Buf Pcm Live.

Lemma getInt16_prefix (l t : list byte) (offset : nat) :
  (offset + 2 <= List.length l)%nat ->
  getInt16 (l ++ t) offset = getInt16 l offset.
Proof.
  intros H. unfold getInt16. now rewrite !nth_error_app1 by lia.
Qed.

(** Bytes beyond the last complete pair are never read. *)
Lemma decode_loop_prefix (l t : list byte) (count i : nat) :
  ((i + count) * 2 <= List.length l)%nat ->
  decode_loop (l ++ t) i count = decode_loop l i count.
Proof.
  revert i. induction count as [|count IH]; intros i H; cbn [decode_loop].
  - reflexivity.
  - rewrite getInt16_prefix by lia. rewrite (IH (S i)) by lia. reflexivity.
Qed.

Lemma even_half (n : nat) : Nat.even n = true -> ((n + 1) / 2 = n / 2)%nat.
Proof.
  intros H. apply Nat.even_spec in H. destruct H as [k ->].
  rewrite (Nat.mul_comm 2 k), Nat.div_add_l, Nat.div_mul by lia.
  cbn. lia.
Qed.

Lemma decodePCM_trailing_byte (bytes : list byte) (last : byte) :
  Nat.even (List.length bytes) = true ->
  decodePCM (bytes ++ [last]) = decodePCM bytes.
Proof.
  intros H. unfold decodePCM. rewrite length_app. cbn [List.length].
  rewrite (even_half _ H). apply decode_loop_prefix.
  cbn [Nat.add]. pose proof (Nat.div_mod_eq (List.length bytes) 2). lia.
Qed.

End OddPayload.

(** C2, as the code has it.  A payload that decodes to an odd number of
    bytes is not recognised as malformed.  The trailing byte is ignored.
    When at least one complete sample precedes it, the samples are
    scheduled as a segment and the cursor advances by their duration; when
    the payload is a single byte, [createBuffer] rejects the empty buffer,
    the handler ends there, nothing is scheduled and the cursor keeps its
    value.  In both cases [isConnected] and [error] are untouched. *)
Theorem C2_odd_payload_not_dropped
    (h : Live.hook) (ctx : nat) (now : Q) (data : string)
    (bytes : list byte) (last : byte) :
  Live.audioContextRef h = Some ctx ->
  Live.truthy data = true ->
  Base64.base64ToUint8Array data = Some (bytes ++ [last]) ->
  Nat.even (List.length bytes) = true ->
  let outcome := fst (Live.onmessage now (Some data) h) in
  let h' := Live.step now (Live.Message (Some data)) h in
  let start := Live.later now (Live.nextStartTimeRef h) in
  Pcm.decodePCM (bytes ++ [last]) = Pcm.decodePCM bytes
  /\ Live.isConnected h' = Live.isConnected h
  /\ Live.error h' = Live.error h
  /\ (bytes <> [] ->
        outcome = Live.Ok tt
        /\ Live.nextStartTimeRef h'
           = start + Live.duration (Aux.frames_of bytes)
        /\ Live.trace h'
           = Live.trace h ++ [Live.SourceStart ctx start (Aux.frames_of bytes)])
  /\ (bytes = [] ->
        outcome = Live.Throw "NotSupportedError"
        /\ Live.nextStartTimeRef h' = Live.nextStartTimeRef h
        /\ Live.trace h' = Live.trace h).
Proof.
  intros Hctx Ht Hb He outcome h' start.
  split; [now apply decodePCM_trailing_byte|].
  unfold outcome, h', start, Live.step. cbn [Live.handler].
  rewrite (onmessage_decoded h ctx now data _ Hctx Ht Hb).
  assert (F : Aux.frames_of (bytes ++ [last]) = Aux.frames_of bytes).
  { unfold Aux.frames_of. rewrite length_app. cbn [List.length].
    now apply even_half. }
  rewrite F.
  destruct bytes as [|b0 [|b1 rest]].
  - cbn. repeat split; auto; congruence.
  - cbn in He. discriminate.
  - assert (G : exists n, Aux.frames_of (b0 :: b1 :: rest) = S n).
    { unfold Aux.frames_of.
      destruct (List.length (b0 :: b1 :: rest) / 2)%nat as [|n] eqn:E.
      - apply Nat.div_small_iff in E; [cbn in E; lia | lia].
      - now exists n. }
    destruct G as [n G]. rewrite G. cbn.
    repeat split; auto; try congruence; intros; discriminate.
Qed.

Lemma C2_odd_payload_witness :
  Live.nextStartTimeRef
    (Live.step 7 (Live.Message (Some "AAAA"%string)) Aux.active)
  = Live.later 7 0 + Live.duration 1.
Proof.
  exact (proj1 (proj2
    (proj1 (proj2 (proj2 (proj2
      (C2_odd_payload_not_dropped Aux.active 0 7 "AAAA" [x00; x00] x00
         eq_refl eq_refl eq_refl eq_refl))))
      ltac:(discriminate)))).
Defined.

(** C2, as worded: the payload [AAAA] decodes to three bytes, an odd
    number, yet one sample of it is scheduled and the cursor moves from 0
    to 1/24000. *)
Lemma C2_odd_payload_counterexample :
  Base64.base64ToUint8Array "AAAA" = Some [x00; x00; x00]
  /\ Live.nextStartTimeRef Aux.active == 0
  /\ Live.nextStartTimeRef
       (Live.step 0 (Live.Message (Some "AAAA"%string)) Aux.active)
     == 1 # 24000
  /\ Live.starts
       (Live.trace (Live.step 0 (Live.Message (Some "AAAA"%string)) Aux.active))
     = [0].
Proof.
  repeat split; vm_compute; reflexivity.
Qed.

(** ** Session lifecycle *)

Section Lifecycle.

Import Live.

Lemma count_app (p : effect -> bool) (t u : list effect) :
  List.length (filter p (t ++ u))
  = (List.length (filter p t) + List.length (filter p u))%nat.
Proof. now rewrite filter_app, length_app. Qed.

(** [connect] with a key and granted devices, whatever the state. *)
Lemma connect_granted (h : hook) (role : string) (env : environment) (k : string) :
  API_KEY env = Some k -> truthy k = true -> granted env = true ->
  exists t,
    fst (connect role env h) = Ok tt
    /\ trace (snd (connect role env h))
       = trace h ++ [NewAudioContext (fresh h) 24000;
                     GetUserMedia (S (fresh h));
                     NewAudioContext (S (S (fresh h))) 16000] ++ t
          ++ [LiveConnect (fresh h + 5) role]
    /\ Forall (fun e => is_LiveConnect e = false /\ is_output_context e = false
                        /\ is_GetUserMedia e = false) t
    /\ audioContextRef (snd (connect role env h)) = Some (fresh h)
    /\ sessionRef (snd (connect role env h)) = Some (fresh h + 5)%nat
    /\ isConnected (snd (connect role env h)) = isConnected h
    /\ nextStartTimeRef (snd (connect role env h)) = nextStartTimeRef h.
Proof.
  intros Hk Ht Hg. unfold granted in Hg.
  destruct h as [c s e l a i p ss n vi video t f].
  unfold connect, try_catch, bind, getUserMedia. rewrite Hk, Ht.
  destruct (userMedia env); [discriminate|].
  destruct video as [v|]; cbn;
    replace (f + 5)%nat with (S (S (S (S (S f))))) by lia.
  - exists [CreateMediaStreamSource (S (S f)) (S (S (S f))) (S f);
            CreateScriptProcessor (S (S f)) (S (S (S (S f))));
            NodeConnect (S (S (S f))); NodeConnect (S (S (S (S f))));
            VideoPlay (S f)].
    repeat split; try reflexivity;
      [rewrite <- !app_assoc; reflexivity | repeat constructor].
  - exists [CreateMediaStreamSource (S (S f)) (S (S (S f))) (S f);
            CreateScriptProcessor (S (S f)) (S (S (S (S f))));
            NodeConnect (S (S (S f))); NodeConnect (S (S (S (S f))))].
    repeat split; try reflexivity;
      [rewrite <- !app_assoc; reflexivity | repeat constructor].
Qed.

Lemma count_none (p : effect -> bool) (t : list effect) :
  Forall (fun e => p e = false) t -> List.length (filter p t) = O.
Proof.
  induction 1 as [|e t He _ IH]; cbn [filter]; [reflexivity|].
  now rewrite He.
Qed.

End Lifecycle.

(** C3, as the code has it.  [connect] does not look at the state of the
    hook.  Whenever a key is configured and the devices are granted, a call
    opens one more connection, one more output audio context and one more
    capture stream, and overwrites the stored context and session, also
    when a session is already active. *)
Theorem C3_connect_has_no_state_guard
    (h : Live.hook) (now : Q) (role : string) (env : Live.environment)
    (k : string) :
  Live.API_KEY env = Some k -> Live.truthy k = true ->
  Live.granted env = true ->
  let h' := Live.step now (Live.Connect role env) h in
  Live.count Live.is_LiveConnect h' = S (Live.count Live.is_LiveConnect h)
  /\ Live.count Live.is_output_context h'
     = S (Live.count Live.is_output_context h)
  /\ Live.count Live.is_GetUserMedia h'
     = S (Live.count Live.is_GetUserMedia h)
  /\ Live.audioContextRef h' = Some (Live.fresh h)
  /\ Live.sessionRef h' = Some (Live.fresh h + 5)%nat
  /\ Live.isConnected h' = Live.isConnected h.
Proof.
  intros Hk Ht Hg h'.
  destruct (connect_granted h role env k Hk Ht Hg)
    as [t [_ [T [F [A [S [C _]]]]]]].
  unfold h', Live.step, Live.count. cbn [Live.handler].
  rewrite T, A, S, C.
  assert (F1 : Forall (fun e => Live.is_LiveConnect e = false) t)
    by (revert F; apply Forall_impl; tauto).
  assert (F2 : Forall (fun e => Live.is_output_context e = false) t)
    by (revert F; apply Forall_impl; tauto).
  assert (F3 : Forall (fun e => Live.is_GetUserMedia e = false) t)
    by (revert F; apply Forall_impl; tauto).
  rewrite !count_app, (count_none _ t F1), (count_none _ t F2),
    (count_none _ t F3).
  cbn. repeat split; lia.
Qed.

Lemma C3_connect_witness :
  Live.count Live.is_LiveConnect
    (Live.step 0 (Live.Connect "Engineer" Aux.env_ok) Aux.active)
  = S (Live.count Live.is_LiveConnect Aux.active).
Proof.
  exact (proj1 (C3_connect_has_no_state_guard Aux.active 0 "Engineer"
                  Aux.env_ok "key" eq_refl eq_refl eq_refl)).
Defined.

(** C3, as worded: with a session active, a second [connect] is carried
    out in full; afterwards two connections and two output contexts have
    been opened, none closed, and the stored context is the new one. *)
Lemma C3_second_connect_counterexample :
  Live.isConnected Aux.active = true
  /\ Live.count Live.is_LiveConnect Aux.active = 1%nat
  /\ (let h' := Live.step 0 (Live.Connect "Engineer" Aux.env_ok) Aux.active in
      Live.count Live.is_LiveConnect h' = 2%nat
      /\ Live.count Live.is_output_context h' = 2%nat
      /\ Live.count Live.is_GetUserMedia h' = 2%nat
      /\ Live.audioContextRef h' <> Live.audioContextRef Aux.active
      /\ Live.isConnected h' = true).
Proof.
  repeat split; try (vm_compute; reflexivity).
  vm_compute. discriminate.
Qed.

Section Teardown.

Import Live.

(** [disconnect] never throws, and what it leaves in the state. *)
Lemma disconnect_result (h : hook) :
  exists t,
    disconnect h
    = (Ok tt,
       mkHook false false (error h) (logs h) (audioContextRef h)
         (inputSourceRef h) (processorRef h) (sessionRef h) 0
         (videoIntervalRef h)
         (match videoRef h with Some _ => Some None | None => None end)
         (trace h ++ t) (fresh h)).
Proof.
  destruct h as [c s e l a i p ss n vi video t f].
  unfold disconnect, bind, gets, when_set.
  destruct i as [i|], p as [p|], a as [a|], vi as [vi|],
    video as [[v|]|]; cbn;
    eexists; rewrite <- ?app_assoc;
      try reflexivity; rewrite app_nil_r; reflexivity.
Qed.

Lemma isSpeaking_unchanged (now : Q) (ev : event) (h : hook) :
  match ev with
  | Message _ | Ended | Disconnect => True
  | _ => isSpeaking (step now ev h) = isSpeaking h
  end.
Proof.
  unfold step. destruct ev; cbn [handler]; try exact I; try reflexivity.
  - apply connect_isSpeaking.
  - apply onaudioprocess_state.
Qed.

Lemma onmessage_isSpeaking (now : Q) (data : string) (h : hook) :
  truthy data = true ->
  isSpeaking (snd (onmessage now (Some data) h)) = true.
Proof.
  intros Ht.
  destruct (audioContextRef h) as [ctx|] eqn:Hctx.
  - destruct (Base64.base64ToUint8Array data) as [bytes|] eqn:Hb.
    + rewrite (onmessage_decoded h ctx now data bytes Hctx Ht Hb).
      destruct (Aux.frames_of bytes); reflexivity.
    + unfold onmessage. rewrite Ht.
      unfold bind, setIsSpeaking, modify, gets. cbn [audioContextRef].
      rewrite Hctx, Hb. reflexivity.
  - unfold onmessage. rewrite Ht.
    unfold bind, setIsSpeaking, modify, gets. cbn [audioContextRef].
    rewrite Hctx. reflexivity.
Qed.

Lemma onmessage_keeps_speaking (now : Q) (audioData : option string) (h : hook) :
  isSpeaking h = true ->
  isSpeaking (snd (onmessage now audioData h)) = true.
Proof.
  intros H. destruct audioData as [data|]; [|exact H].
  destruct (truthy data) eqn:Ht.
  - now apply onmessage_isSpeaking.
  - unfold onmessage. now rewrite Ht.
Qed.

End Teardown.

(** C4, as the code has it.  [disconnect] never throws and always leaves
    [isConnected] false, [isSpeaking] false, the cursor at 0 and the video
    element without a stream, so a cycle of connect, open and disconnect
    ends there.  Before any connect it changes nothing and calls nothing.
    A second [disconnect] changes no part of the hook's state. *)
Theorem C4_disconnect_resets_state (h : Live.hook) (now now' : Q) :
  let h1 := Live.step now Live.Disconnect h in
  let h2 := Live.step now' Live.Disconnect h1 in
  fst (Live.disconnect h) = Live.Ok tt
  /\ Live.isConnected h1 = false
  /\ Live.isSpeaking h1 = false
  /\ Live.nextStartTimeRef h1 = 0
  /\ Live.videoRef h1
     = match Live.videoRef h with Some _ => Some None | None => None end
  /\ Aux.same_state h2 h1
  /\ Live.disconnect (Live.initial None) = (Live.Ok tt, Live.initial None)
  /\ Live.disconnect (Live.initial (Some None))
     = (Live.Ok tt, Live.initial (Some None)).
Proof.
  intros h1 h2. unfold h2, h1, Live.step. cbn [Live.handler].
  destruct (disconnect_result h) as [t E]. rewrite E. cbn [fst snd].
  match goal with |- context [Live.disconnect ?g] =>
    destruct (disconnect_result g) as [t' E'] end.
  rewrite E'. cbn [fst snd].
  unfold Aux.same_state. cbn.
  destruct (Live.videoRef h); repeat split; reflexivity.
Qed.

(** C4, as worded for a second call: after connect, open and disconnect
    the hook is idle and its output context has been closed; a further
    [disconnect] again calls [disconnect] on both nodes, [close] on that
    context and [clearInterval] on the timer, since the refs still hold
    them. *)
Lemma C4_second_disconnect_counterexample :
  let h1 := Live.step 0 Live.Disconnect Aux.active in
  Live.isConnected h1 = false
  /\ In (Live.ContextClose 0) (Live.trace h1)
  /\ Live.trace (Live.step 0 Live.Disconnect h1)
     = Live.trace h1 ++ [Live.NodeDisconnect 3; Live.NodeDisconnect 4;
                         Live.ContextClose 0; Live.ClearInterval 6]
  /\ Live.step 0 Live.Disconnect h1 <> h1.
Proof.
  cbv zeta. split; [vm_compute; reflexivity|].
  split; [vm_compute; tauto|].
  split; [vm_compute; reflexivity|].
  intros E. apply (f_equal (fun g => List.length (Live.trace g))) in E.
  vm_compute in E. discriminate.
Qed.

(** C5.  A message with an audio payload sets the speaking flag.  The
    playback-end handler clears it exactly when the clock reading has
    reached the cursor and leaves it alone while the reading is below the
    cursor.  Over all events, whenever the flag goes from true to false the
    cursor of the resulting state is at or below the clock reading. *)
Theorem C5_speaking_flag
    (h : Live.hook) (now : Q) (data : string) (ev : Live.event) :
  Live.truthy data = true ->
  0 <= now ->
  Live.isSpeaking (Live.step now (Live.Message (Some data)) h) = true
  /\ (Live.nextStartTimeRef h <= now ->
        Live.isSpeaking (Live.step now Live.Ended h) = false)
  /\ (now < Live.nextStartTimeRef h ->
        Live.isSpeaking (Live.step now Live.Ended h) = Live.isSpeaking h)
  /\ Live.nextStartTimeRef (Live.step now Live.Ended h)
     = Live.nextStartTimeRef h
  /\ (Live.isSpeaking h = true ->
      Live.isSpeaking (Live.step now ev h) = false ->
      Live.nextStartTimeRef (Live.step now ev h) <= now).
Proof.
  intros Ht Hnow.
  split; [now apply onmessage_isSpeaking|].
  split.
  { intros L. unfold Live.step. cbn [Live.handler].
    unfold Live.onended, Live.bind, Live.gets.
    apply Qle_bool_iff in L. now rewrite L. }
  split.
  { intros L. unfold Live.step. cbn [Live.handler].
    unfold Live.onended, Live.bind, Live.gets.
    destruct (Qle_bool (Live.nextStartTimeRef h) now) eqn:E; [|reflexivity].
    apply Qle_bool_iff in E. lra. }
  split; [apply onended_cursor|].
  intros Hs Hf.
  pose proof (isSpeaking_unchanged now ev h) as U.
  destruct ev; try (rewrite U in Hf; congruence).
  - unfold Live.step in Hf. cbn [Live.handler] in Hf.
    rewrite onmessage_keeps_speaking in Hf by assumption. discriminate.
  - unfold Live.step in *. cbn [Live.handler] in *.
    unfold Live.onended, Live.bind, Live.gets in *.
    destruct (Qle_bool (Live.nextStartTimeRef h) now) eqn:E.
    + apply Qle_bool_iff in E. exact E.
    + cbn in Hf. congruence.
  - unfold Live.step. cbn [Live.handler].
    destruct (disconnect_result h) as [t E]. rewrite E. exact Hnow.
Qed.

Lemma C5_speaking_witness :
  Live.isSpeaking
    (Live.step 1 Live.Ended
       (Live.step 0 (Live.Message (Some "AAA="%string)) Aux.active))
  = false.
Proof.
  refine (proj1 (proj2
    (C5_speaking_flag
       (Live.step 0 (Live.Message (Some "AAA="%string)) Aux.active)
       1 "AAA=" Live.Ended eq_refl _)) _).
  - vm_compute. discriminate.
  - vm_compute. discriminate.
Defined.

(** ** Job listings *)

Section JobsFacts.

Import Jobs.
Local Open Scope N_scope.

(** Induction over a string that follows the pairing of surrogates. *)
Lemma units_ind (P : jsstring -> Prop) :
  P [] -> (forall c, P [c]) ->
  (forall c d rest, P rest -> P (d :: rest) -> P (c :: d :: rest)) ->
  forall s, P s.
Proof.
  intros H0 H1 H2 s.
  assert (G : P s /\ forall c, P (c :: s)).
  { induction s as [|d s [IH0 IH1]].
    - split; [exact H0 | exact H1].
    - split; [apply IH1 | intros c; now apply H2]. }
  apply G.
Qed.

Lemma unreserved_not_surrogate (c : N) :
  unreserved c = true -> is_low c = false /\ is_high c = false.
Proof.
  unfold unreserved, is_low, is_high. cbn [existsb]. intros H.
  assert (B : c < 128).
  { repeat match type of H with
      | (_ || _)%bool = true =>
          apply orb_true_iff in H; destruct H as [H | H]
      | (_ && _)%bool = true =>
          let A := fresh "A" in
          apply andb_true_iff in H; destruct H as [A H];
          try (apply N.leb_le in A)
      end;
      try (apply N.leb_le in H); try (apply N.eqb_eq in H);
      try discriminate; lia. }
  split; apply andb_false_iff; left; apply N.leb_gt; lia.
Qed.

Lemma encodeURIComponent_cons (c : N) (rest : jsstring) :
  encodeURIComponent (c :: rest)
  = if unreserved c then option_map (cons c) (encodeURIComponent rest)
    else if is_low c then None
    else if is_high c then
      match rest with
      | d :: rest' =>
          if is_low d then
            option_map (app (flat_map percent (utf8 (pair_code_point c d))))
                       (encodeURIComponent rest')
          else None
      | [] => None
      end
    else option_map (app (flat_map percent (utf8 c))) (encodeURIComponent rest).
Proof. reflexivity. Qed.

Lemma well_formed_cons (c : N) (rest : jsstring) :
  well_formed (c :: rest)
  = if is_low c then false
    else if is_high c then
      match rest with
      | d :: rest' => is_low d && well_formed rest'
      | [] => false
      end
    else well_formed rest.
Proof. reflexivity. Qed.

Lemma option_map_shape {A B} (f : A -> B) (o : option A) (P Q : Prop) :
  match o with Some _ => P | None => Q end ->
  match option_map f o with Some _ => P | None => Q end.
Proof. destruct o; auto. Qed.

(** [encodeURIComponent] fails exactly on the strings that are not well
    formed. *)
Lemma encodeURIComponent_well_formed (s : jsstring) :
  match encodeURIComponent s with
  | Some _ => well_formed s = true
  | None => well_formed s = false
  end.
Proof.
  induction s as [| c | c d rest IH0 IH1] using units_ind.
  - reflexivity.
  - rewrite encodeURIComponent_cons, well_formed_cons.
    destruct (unreserved c) eqn:U.
    + destruct (unreserved_not_surrogate c U) as [L H]. rewrite L, H.
      reflexivity.
    + destruct (is_low c); [reflexivity|].
      destruct (is_high c); reflexivity.
  - rewrite encodeURIComponent_cons, well_formed_cons.
    destruct (unreserved c) eqn:U.
    + destruct (unreserved_not_surrogate c U) as [L H]. rewrite L, H.
      now apply option_map_shape.
    + destruct (is_low c); [reflexivity|].
      destruct (is_high c).
      * destruct (is_low d); [|reflexivity]. cbn [andb].
        now apply option_map_shape.
      * now apply option_map_shape.
Qed.

Lemma well_formed_app (a b : jsstring) :
  well_formed a = true -> well_formed (a ++ b) = well_formed b.
Proof.
  induction a as [| c | c d rest IH0 IH1] using units_ind; intros H.
  - reflexivity.
  - cbn [app]. rewrite well_formed_cons in *.
    destruct (is_low c); [discriminate|].
    destruct (is_high c); [discriminate | reflexivity].
  - change ((c :: d :: rest) ++ b) with (c :: (d :: rest) ++ b).
    rewrite well_formed_cons in H. rewrite well_formed_cons.
    destruct (is_low c); [discriminate|].
    destruct (is_high c).
    + cbn [app]. apply andb_true_iff in H. destruct H as [L W].
      rewrite L. cbn [andb]. now apply IH0.
    + now apply IH1.
Qed.

Lemma not_well_formed_app (a : jsstring) (x : N) (b : jsstring) :
  is_low x = false ->
  well_formed a = false -> well_formed (a ++ x :: b) = false.
Proof.
  intros X.
  induction a as [| c | c d rest IH0 IH1] using units_ind; intros H.
  - discriminate.
  - cbn [app]. rewrite well_formed_cons in *.
    destruct (is_low c); [reflexivity|].
    destruct (is_high c); [now rewrite X | discriminate].
  - change ((c :: d :: rest) ++ x :: b) with (c :: (d :: rest) ++ x :: b).
    rewrite well_formed_cons in H. rewrite well_formed_cons.
    destruct (is_low c); [reflexivity|].
    destruct (is_high c).
    + cbn [app]. destruct (is_low d); [|reflexivity].
      cbn [andb] in *. now apply IH0.
    + now apply IH1.
Qed.

(** The fallback listing exists exactly for a well-formed role. *)
Lemma fallback_well_formed (role location : jsstring) :
  match fallback role location with
  | Some j =>
      well_formed role = true
      /\ title j = role ++ lit " - Search Results"
      /\ company j = lit "Google Search"
      /\ Jobs.location j = location
      /\ exists query,
           encodeURIComponent (role ++ lit " jobs") = Some query
           /\ url j = lit "https://www.google.com/search?q=" ++ query
  | None => well_formed role = false
  end.
Proof.
  unfold fallback.
  pose proof (encodeURIComponent_well_formed (role ++ lit " jobs")) as E.
  destruct (encodeURIComponent (role ++ lit " jobs")) as [query|].
  - split.
    + destruct (well_formed role) eqn:W; [reflexivity|].
      change (lit " jobs") with (32 :: lit "jobs") in E.
      rewrite (not_well_formed_app role 32 (lit "jobs") eq_refl W) in E.
      discriminate.
    + repeat split. now exists query.
  - destruct (well_formed role) eqn:W; [|reflexivity].
    rewrite (well_formed_app role (lit " jobs") W) in E. discriminate.
Qed.

(** Which chunks pass the filter, and the listing made from one. *)
Lemma usable_iff (c : GroundingChunk) :
  usable c = true
  <-> exists u t, web c = Some (mkWeb (Some u) (Some t)) /\ u <> [] /\ t <> [].
Proof.
  unfold usable, chunk_uri, chunk_title. destruct c as [[[u t]|]]; cbn.
  - split.
    + intros H. apply andb_true_iff in H. destruct H as [Hu Ht].
      destruct u as [[|x u]|]; try discriminate.
      destruct t as [[|y t]|]; try discriminate.
      exists (x :: u), (y :: t). repeat split; discriminate.
    + intros [u' [t' [E [Hu Ht]]]]. injection E as -> ->.
      destruct u'; [congruence|]. destruct t'; [congruence|]. reflexivity.
  - split; [discriminate | intros [u [t [E _]]]; discriminate].
Qed.

Lemma listing_of_usable (location : jsstring) (c : GroundingChunk)
    (u t : jsstring) :
  web c = Some (mkWeb (Some u) (Some t)) -> u <> [] -> t <> [] ->
  listing_of location c = mkJob t (lit "Source: Web") location u.
Proof.
  intros E Hu Ht. unfold listing_of, chunk_uri, chunk_title. rewrite E.
  cbn [uri web_title]. destruct u; [congruence|]. destruct t; [congruence|].
  reflexivity.
Qed.

Lemma searchJobs_resolved (role : jsstring) (location : option jsstring)
    (response : Response) :
  let loc := match location with Some l => l | None => lit "Remote" end in
  searchJobs role location (Ok response)
  = match filter usable (groundingChunks response) with
    | [] => match fallback role loc with
            | Some listing => Ok [listing]
            | None => Throw "URIError"
            end
    | good => Ok (map (listing_of loc) (firstn 6 good))
    end.
Proof.
  cbv zeta. unfold searchJobs.
  destruct (filter usable (groundingChunks response)) as [|c rest];
    [reflexivity|].
  rewrite <- firstn_map. reflexivity.
Qed.

End JobsFacts.

(** C10, as the code has it.  When the request resolves and the role is a
    well-formed string, or some chunk has a non-empty address and a
    non-empty title, [searchJobs] returns between one and six listings: one
    for each of the first six such chunks of the first candidate, in their
    order, carrying the chunk's title and address, or, when there is no
    such chunk, the single fallback listing whose address is the web search
    for the role.  When the request is rejected the rejection is passed on,
    and when there is no such chunk and the role holds a surrogate without
    its partner, encoding the role throws. *)
Theorem C10_searchJobs_listings_when_it_returns
    (role : Jobs.jsstring) (location : option Jobs.jsstring)
    (response : Jobs.Response) :
  let loc := match location with Some l => l | None => Jobs.lit "Remote" end in
  let good := filter Jobs.usable (Jobs.groundingChunks response) in
  Jobs.well_formed role = true \/ good <> [] ->
  (exists listings,
     Jobs.searchJobs role location (Jobs.Ok response) = Jobs.Ok listings
     /\ (1 <= List.length listings <= 6)%nat
     /\ match good with
        | [] =>
            exists query,
              Jobs.encodeURIComponent (role ++ Jobs.lit " jobs") = Some query
              /\ listings
                 = [Jobs.mkJob (role ++ Jobs.lit " - Search Results")
                      (Jobs.lit "Google Search") loc
                      (Jobs.lit "https://www.google.com/search?q=" ++ query)]
        | _ :: _ =>
            listings = map (Jobs.listing_of loc) (firstn 6 good)
            /\ List.length listings = Nat.min 6 (List.length good)
        end)
  /\ (forall chunks others,
        Jobs.groundingChunks
          (Jobs.mkResponse
             (Some (Jobs.mkCandidate (Some (Some chunks)) :: others)))
        = chunks)
  /\ (forall others,
        Jobs.groundingChunks (Jobs.mkResponse None) = []
        /\ Jobs.groundingChunks (Jobs.mkResponse (Some [])) = []
        /\ Jobs.groundingChunks
             (Jobs.mkResponse (Some (Jobs.mkCandidate None :: others))) = []
        /\ Jobs.groundingChunks
             (Jobs.mkResponse (Some (Jobs.mkCandidate (Some None) :: others)))
           = [])
  /\ (forall c,
        Jobs.usable c = true
        <-> exists u t, Jobs.web c = Some (Jobs.mkWeb (Some u) (Some t))
                        /\ u <> [] /\ t <> [])
  /\ (forall c u t,
        Jobs.web c = Some (Jobs.mkWeb (Some u) (Some t)) -> u <> [] -> t <> [] ->
        Jobs.listing_of loc c = Jobs.mkJob t (Jobs.lit "Source: Web") loc u)
  /\ (forall reason,
        Jobs.searchJobs role location (Jobs.Throw reason) = Jobs.Throw reason)
  /\ (Jobs.well_formed role = false -> good = [] ->
      Jobs.searchJobs role location (Jobs.Ok response) = Jobs.Throw "URIError").
Proof.
  intros loc good H.
  pose proof (searchJobs_resolved role location response) as R.
  cbv zeta in R. fold loc in R. fold good in R.
  pose proof (fallback_well_formed role loc) as F.
  split.
  { rewrite R. destruct good as [|c rest] eqn:G.
    - destruct H as [W | N]; [|congruence].
      destruct (Jobs.fallback role loc) as [j|]; [|congruence].
      destruct F as [_ [T [C [L [query [E U]]]]]].
      exists [j]. split; [reflexivity|]. split; [cbn; lia|].
      exists query. split; [exact E|].
      destruct j as [jt jc jl ju]. cbn in T, C, L, U. now subst.
    - eexists. split; [reflexivity|].
      rewrite length_map, length_firstn.
      split; [cbn [List.length]; lia|]. split; reflexivity. }
  split; [reflexivity|].
  split; [intros others; repeat split; reflexivity|].
  split; [apply usable_iff|].
  split; [intros c u t; apply listing_of_usable|].
  split; [reflexivity|].
  intros W G. rewrite R, G.
  destruct (Jobs.fallback role loc); [destruct F; congruence | reflexivity].
Qed.

Lemma C10_searchJobs_witness :
  exists listings,
    Jobs.searchJobs (Jobs.lit "C++ dev") None
      (Jobs.Ok
         (Jobs.mkResponse
            (Some [Jobs.mkCandidate
                     (Some (Some [Jobs.mkChunk None;
                                  Jobs.mkChunk
                                    (Some (Jobs.mkWeb (Some (Jobs.lit "x"))
                                                      (Some [])))]))])))
    = Jobs.Ok listings
    /\ (1 <= List.length listings <= 6)%nat.
Proof.
  destruct (proj1
    (C10_searchJobs_listings_when_it_returns (Jobs.lit "C++ dev") None
       (Jobs.mkResponse
          (Some [Jobs.mkCandidate
                   (Some (Some [Jobs.mkChunk None;
                                Jobs.mkChunk
                                  (Some (Jobs.mkWeb (Some (Jobs.lit "x"))
                                                    (Some [])))]))]))
       (or_introl eq_refl))) as [listings [E [L _]]].
  exists listings. split; [exact E | exact L].
Defined.

(** C10, as worded: [searchJobs] does not always return a list.  A
    rejected request is passed on, and with no usable chunk a role that
    holds a lone surrogate makes the encoding of its search address
    throw. *)
Lemma C10_searchJobs_counterexample :
  Jobs.searchJobs (Jobs.lit "Engineer") None (Jobs.Throw "503")
  = Jobs.Throw "503"
  /\ Jobs.searchJobs [55357%N] None (Jobs.Ok (Jobs.mkResponse None))
     = Jobs.Throw "URIError".
Proof.
  split; vm_compute; reflexivity.
Qed.

(** * Further properties *)

(** ** The inbound conversion and its relation to the encoder *)

Section CodecMore.

Import JS Buf Pcm.

Lemma getInt16_range (buf : list byte) (offset : nat) (v : Z) :
  getInt16 buf offset = Some v -> (-32768 <= v <= 32767)%Z.
Proof.
  unfold getInt16.
  destruct (nth_error buf offset) as [lo|]; [|discriminate].
  destruct (nth_error buf (offset + 1)) as [hi|]; [|discriminate].
  pose proof (Z_of_byte_range lo). pose proof (Z_of_byte_range hi).
  cbv zeta. remember (Z_of_byte lo + 256 * Z_of_byte hi)%Z as u eqn:Hu.
  intros E. injection E as <-.
  destruct (Z.leb_spec 32768 u); lia.
Qed.

Lemma dequantize_range (v : Z) :
  (-32768 <= v <= 32767)%Z ->
  -1 <= Aux.dequantize v /\ Aux.dequantize v < 1.
Proof.
  intros [L U]. rewrite dequantize_mul.
  rewrite Zle_Qle in L. rewrite Zle_Qle in U.
  change (inject_Z (-32768)) with (-32768 # 1) in L.
  change (inject_Z 32767) with (32767 # 1) in U.
  set (x := inject_Z v) in *. split; lra.
Qed.

Lemma decode_loop_samples (bytes : list byte) (count i : nat) (samples : list Q) :
  decode_loop bytes i count = Some samples ->
  Forall (fun x => exists v, (-32768 <= v <= 32767)%Z /\ x = Aux.dequantize v)
         samples.
Proof.
  revert i samples. induction count as [|count IH]; intros i samples;
    cbn [decode_loop].
  - intros E. injection E as <-. constructor.
  - destruct (getInt16 bytes (i * 2)) as [v|] eqn:G; [|discriminate].
    destruct (decode_loop bytes (S i) count) as [rest|] eqn:D; [|discriminate].
    intros E. injection E as <-. constructor.
    + exists v. split; [now apply getInt16_range in G | reflexivity].
    + now apply (IH (S i)).
Qed.

Lemma Qfloor_unique (x : Q) (k : Z) :
  inject_Z k <= x -> x < inject_Z (k + 1) -> Qfloor x = k.
Proof.
  intros L U.
  assert (A : (k <= Qfloor x)%Z).
  { rewrite <- (Qfloor_Z k). now apply Qfloor_resp_le. }
  assert (B : (Qfloor x < k + 1)%Z).
  { rewrite Zlt_Qlt. apply Qle_lt_trans with x; [apply Qfloor_le | exact U]. }
  lia.
Qed.

Lemma clamp_inside (q : Q) : -1 <= q -> q < 1 -> Aux.clamp q = q.
Proof.
  intros L U. unfold Aux.clamp.
  destruct (Qle_bool 1 q) eqn:E1.
  - apply Qle_bool_iff in E1. lra.
  - apply Qle_bool_iff in L. now rewrite L.
Qed.

Lemma clamp_monotone (p q : Q) : p <= q -> Aux.clamp p <= Aux.clamp q.
Proof.
  intros H. unfold Aux.clamp.
  destruct (Qle_bool 1 p) eqn:P1; destruct (Qle_bool 1 q) eqn:Q1;
    try (apply Qle_bool_iff in P1); try (apply Qle_bool_iff in Q1);
    try (apply Qle_bool_false in P1); try (apply Qle_bool_false in Q1);
    repeat match goal with
      | |- context [Qle_bool (-1) ?m] =>
          let E := fresh "E" in
          destruct (Qle_bool (-1) m) eqn:E;
          [apply Qle_bool_iff in E | apply Qle_bool_false in E]
      end; lra.
Qed.

Lemma scale_cases (c : Q) :
  (0 <= c /\ Aux.scale c = 32767) \/ (c < 0 /\ Aux.scale c = 32768).
Proof.
  unfold Aux.scale, is_neg. destruct (Qle_bool 0 c) eqn:E.
  - left. split; [now apply Qle_bool_iff | reflexivity].
  - right. split; [now apply Qle_bool_false | reflexivity].
Qed.

End CodecMore.

(** The inbound conversion accepts every byte buffer; it yields one sample
    for each complete pair of bytes, and every sample is a 16-bit integer
    divided by 32768, hence in [-1, 1). *)
Theorem X_decode_samples_in_range (bytes : list byte) :
  exists samples,
    Pcm.decodePCM bytes = Some samples
    /\ List.length samples = (List.length bytes / 2)%nat
    /\ Forall (fun x => (exists v, (-32768 <= v <= 32767)%Z
                                   /\ x = Aux.dequantize v)
                        /\ -1 <= x /\ x < 1) samples.
Proof.
  destruct (decodePCM_total bytes) as [samples [E L]].
  exists samples. split; [exact E|]. split; [exact L|].
  unfold Pcm.decodePCM in E. apply decode_loop_samples in E.
  revert E. apply Forall_impl. intros x [v [R ->]].
  split; [now exists v | now apply dequantize_range].
Qed.

(** Encoding a received sample again does not give the received integer
    back in general: a positive integer comes back one lower, zero and the
    negative integers come back unchanged. *)
Theorem X_reencode_received_sample (v : Z) :
  (-32768 <= v <= 32767)%Z ->
  Pcm.sample16 (JS.Fin (Aux.dequantize v))
  = if (0 <? v)%Z then (v - 1)%Z else v.
Proof.
  intros R. rewrite sample16_Fin.
  destruct (dequantize_range v R) as [L U].
  rewrite (clamp_inside _ L U).
  pose proof (dequantize_mul v) as D.
  assert (Rq : inject_Z (-32768) <= inject_Z v /\ inject_Z v <= inject_Z 32767)
    by (split; rewrite <- Zle_Qle; lia).
  change (inject_Z (-32768)) with (-32768 # 1) in Rq.
  change (inject_Z 32767) with (32767 # 1) in Rq.
  destruct (scale_cases (Aux.dequantize v)) as [[S E] | [S E]]; rewrite E.
  - rewrite truncate_nonneg.
    2:{ set (x := Aux.dequantize v) in *. lra. }
    destruct (Z.ltb_spec 0 v) as [P|P].
    + apply Qfloor_unique.
      * unfold Z.sub. rewrite inject_Z_plus.
        change (inject_Z (- (1))) with (-1 # 1).
        set (x := inject_Z v) in *. set (d := Aux.dequantize v) in *. lra.
      * replace (v - 1 + 1)%Z with v by lia.
        assert (0 < inject_Z v)
          by (change 0 with (inject_Z 0); now rewrite <- Zlt_Qlt).
        set (x := inject_Z v) in *. set (d := Aux.dequantize v) in *. lra.
    + assert (Z0 : v = 0%Z).
      { assert (0 <= inject_Z v)
          by (set (x := inject_Z v) in *; set (d := Aux.dequantize v) in *; lra).
        change 0 with (inject_Z 0) in H. rewrite <- Zle_Qle in H. lia. }
      subst v. reflexivity.
  - rewrite truncate_neg.
    2:{ set (x := Aux.dequantize v) in *. lra. }
    assert (N : (v < 0)%Z).
    { rewrite Zlt_Qlt. change (inject_Z 0) with 0.
      set (x := inject_Z v) in *. set (d := Aux.dequantize v) in *. lra. }
    destruct (Z.ltb_spec 0 v) as [P|_]; [lia|].
    assert (X : Aux.dequantize v * 32768 == inject_Z v).
    { rewrite D. set (x := inject_Z v). lra. }
    rewrite X. apply Qceiling_Z.
Qed.

Lemma X_reencode_witness :
  Pcm.sample16 (JS.Fin (Aux.dequantize 1000)) = 999%Z.
Proof.
  exact (X_reencode_received_sample 1000 ltac:(lia)).
Defined.

(** The encoder preserves order and sign: a larger sample is never stored
    as a smaller integer, a non-negative sample is stored as a non-negative
    integer and a non-positive one as a non-positive integer. *)
Theorem X_encode_monotone (p q : Q) :
  p <= q ->
  (Pcm.sample16 (JS.Fin p) <= Pcm.sample16 (JS.Fin q))%Z
  /\ (0 <= p -> (0 <= Pcm.sample16 (JS.Fin p))%Z)
  /\ (q <= 0 -> (Pcm.sample16 (JS.Fin q) <= 0)%Z).
Proof.
  intros H.
  assert (M : forall a b, a <= b ->
            (Pcm.sample16 (JS.Fin a) <= Pcm.sample16 (JS.Fin b))%Z).
  { intros a b Hab. rewrite !sample16_Fin.
    pose proof (clamp_monotone a b Hab) as C.
    set (ca := Aux.clamp a) in *. set (cb := Aux.clamp b) in *.
    destruct (scale_cases ca) as [[Sa Ea] | [Sa Ea]];
      destruct (scale_cases cb) as [[Sb Eb] | [Sb Eb]]; rewrite Ea, Eb.
    - rewrite !truncate_nonneg by lra. apply Qfloor_resp_le. lra.
    - lra.
    - rewrite truncate_neg, truncate_nonneg by lra.
      apply Z.le_trans with 0%Z.
      + rewrite <- (Qceiling_Z 0). apply Qceiling_resp_le.
        change (inject_Z 0) with 0. lra.
      + rewrite <- (Qfloor_Z 0). apply Qfloor_resp_le.
        change (inject_Z 0) with 0. lra.
    - rewrite !truncate_neg by lra. apply Qceiling_resp_le. lra. }
  split; [now apply M|]. split.
  - intros P. change 0%Z with (Pcm.sample16 (JS.Fin 0)). now apply M.
  - intros N. change 0%Z with (Pcm.sample16 (JS.Fin 0)). now apply M.
Qed.

Lemma X_encode_monotone_witness :
  (Pcm.sample16 (JS.Fin (1 # 4)) <= Pcm.sample16 (JS.Fin (1 # 2)))%Z.
Proof.
  exact (proj1 (X_encode_monotone (1 # 4) (1 # 2)
                  ltac:(unfold Qle; simpl; lia))).
Defined.

(** ** The outbound path *)

Section TransportMore.

Import Base64.

Lemma string_of_list_ascii_length (l : list ascii) :
  String.length (string_of_list_ascii l) = List.length l.
Proof.
  induction l as [|c l IH]; cbn; [reflexivity | now rewrite IH].
Qed.

Lemma div3_step (n : nat) : ((S (S (S n)) + 2) / 3 = S ((n + 2) / 3))%nat.
Proof.
  replace (S (S (S n)) + 2)%nat with ((n + 2) + 1 * 3)%nat by lia.
  rewrite Nat.div_add by lia. lia.
Qed.

(** Four characters for every three bytes, the last group padded. *)
Lemma sextets_padding_length (l : list N) :
  (List.length (sextets l) + List.length (padding (List.length l))
   = 4 * ((List.length l + 2) / 3))%nat.
Proof.
  induction l as [| a | a b | a b c rest IH] using list_ind3;
    try reflexivity.
  cbn [sextets List.length]. unfold padding in *.
  rewrite mod_add3, div3_step. lia.
Qed.

Lemma b64_char_in_alphabet (k : N) : (k < 64)%N -> In (b64_char k) alphabet.
Proof.
  intros H. unfold b64_char. apply nth_In.
  change (List.length alphabet) with 64%nat. lia.
Qed.

Lemma btoa_length (binary : string) :
  String.length (btoa binary)
  = (4 * ((String.length binary + 2) / 3))%nat.
Proof.
  unfold btoa. rewrite string_of_list_ascii_length, length_app, length_map.
  rewrite sextets_padding_length, length_map.
  rewrite <- (string_of_list_ascii_length (list_ascii_of_string binary)).
  now rewrite string_of_list_ascii_of_string.
Qed.

Lemma binaryOfBytes_length (bytes : list byte) :
  String.length (binaryOfBytes bytes) = List.length bytes.
Proof.
  rewrite <- (string_of_list_ascii_of_string (binaryOfBytes bytes)).
  now rewrite string_of_list_ascii_length, binaryOfBytes_chars, length_map.
Qed.

Lemma toTransportText_length (b : list byte) :
  String.length (toTransportText b) = (4 * ((List.length b + 2) / 3))%nat.
Proof.
  unfold toTransportText. now rewrite btoa_length, binaryOfBytes_length.
Qed.

Lemma toTransportText_decodes (b : list byte) :
  base64ToUint8Array (toTransportText b) = Some b.
Proof.
  unfold base64ToUint8Array, toTransportText.
  rewrite atob_btoa, binaryOfBytes_chars, map_map.
  rewrite (map_ext _ (fun x => x)) by apply byte_of_ascii_of_byte.
  now rewrite map_id.
Qed.

End TransportMore.

(** The transport text of [n] bytes has [4 * ceil(n / 3)] characters, each
    a character of the base64 alphabet or the padding sign. *)
Theorem X_transport_text_shape (b : list byte) :
  String.length (Base64.toTransportText b)
  = (4 * ((List.length b + 2) / 3))%nat
  /\ Forall (fun c => In c Base64.alphabet \/ c = "="%char)
            (list_ascii_of_string (Base64.toTransportText b)).
Proof.
  split.
  - apply toTransportText_length.
  - unfold Base64.toTransportText, Base64.btoa. rewrite list_ascii_of_string_of_list_ascii.
    apply Forall_app. split.
    + apply Forall_map.
      pose proof (sextets_below_64 _
        (codes_byte_sized (list_ascii_of_string (Base64.binaryOfBytes b)))) as Hs.
      revert Hs. apply Forall_impl. intros k Hk. left.
      now apply b64_char_in_alphabet.
    + match goal with |- Forall _ (Base64.padding ?n) =>
        destruct (padding_cases n) as [E | [E | E]]; rewrite E end;
        repeat (apply Forall_cons; [right; reflexivity|]); apply Forall_nil.
Qed.

Section Loopback.

Import Live.

Lemma truthy_length (s : string) : (0 < String.length s)%nat -> truthy s = true.
Proof. destruct s; cbn; [lia | reflexivity]. Qed.

Lemma onaudioprocess_result (session : nat) (inputData : list JS.num) (h : hook) :
  onaudioprocess session inputData h
  = (Ok tt,
     mkHook (isConnected h) (isSpeaking h) (error h) (logs h)
       (audioContextRef h) (inputSourceRef h) (processorRef h) (sessionRef h)
       (nextStartTimeRef h) (videoIntervalRef h) (videoRef h)
       (trace h ++
          [SendRealtimeInput session "audio/pcm;rate=16000"
             (Base64.toTransportText
                (flat_map (fun x => Buf.int16_le (Pcm.sample16 x)) inputData))])
       (fresh h)).
Proof.
  unfold onaudioprocess. now rewrite floatTo16BitPCM_flat_map.
Qed.

End Loopback.

(** One captured buffer gives exactly one outbound message, for every
    buffer, and never throws.  The message is tagged as 16 kHz PCM; its
    text decodes to two bytes per sample, and converting those as on the
    inbound path gives, for each sample, the stored integer divided by
    32768.  Nothing else of the hook changes. *)
Theorem X_capture_sends_decodable_audio
    (session : nat) (inputData : list JS.num) (h : Live.hook) :
  exists data,
    Live.onaudioprocess session inputData h
    = (Live.Ok tt, snd (Live.onaudioprocess session inputData h))
    /\ Live.trace (snd (Live.onaudioprocess session inputData h))
       = Live.trace h
           ++ [Live.SendRealtimeInput session "audio/pcm;rate=16000" data]
    /\ Aux.same_state (snd (Live.onaudioprocess session inputData h)) h
    /\ String.length data
       = (4 * ((2 * List.length inputData + 2) / 3))%nat
    /\ exists bytes,
         Base64.base64ToUint8Array data = Some bytes
         /\ List.length bytes = (2 * List.length inputData)%nat
         /\ Pcm.decodePCM bytes
            = Some (map (fun x => Aux.dequantize (Pcm.sample16 x)) inputData).
Proof.
  rewrite onaudioprocess_result. cbn [snd Live.trace].
  eexists. split; [reflexivity|]. split; [reflexivity|].
  split; [unfold Aux.same_state; cbn; repeat split; reflexivity|].
  split.
  - rewrite toTransportText_length, flat_map_int16_length.
    reflexivity.
  - eexists. split; [apply toTransportText_decodes|].
    split; [apply flat_map_int16_length | apply decodePCM_encoded].
Qed.

(** ** What each event changes *)

Section Frames.

Import Live.

Ltac extends_trace :=
  first
    [ exists []; split; [symmetry; apply app_nil_r | constructor]
    | rewrite <- ?app_assoc; cbn [app]; eexists; split;
      [reflexivity | repeat (constructor; try reflexivity)] ].

(** What [onmessage] leaves alone, and the two ways it can end: nothing
    scheduled, or one segment scheduled at the later of clock and cursor. *)
Lemma onmessage_shape (now : Q) (audioData : option string) (h : hook) :
  let h' := snd (onmessage now audioData h) in
  isConnected h' = isConnected h
  /\ logs h' = logs h
  /\ (isSpeaking h' = isSpeaking h \/ isSpeaking h' = true)
  /\ ((trace h' = trace h /\ nextStartTimeRef h' = nextStartTimeRef h)
      \/ exists ctx n,
           trace h'
           = trace h ++ [SourceStart ctx (later now (nextStartTimeRef h)) (S n)]
           /\ nextStartTimeRef h'
              = (later now (nextStartTimeRef h) + duration (S n))%Q).
Proof.
  cbv zeta.
  destruct audioData as [data|]; [|cbn; auto 6].
  destruct (truthy data) eqn:Ht;
    [|unfold onmessage; rewrite Ht; cbn; auto 6].
  destruct (audioContextRef h) as [ctx|] eqn:Hctx.
  - destruct (Base64.base64ToUint8Array data) as [bytes|] eqn:Hb.
    + rewrite (onmessage_decoded h ctx now data bytes Hctx Ht Hb).
      destruct (Aux.frames_of bytes) as [|n]; cbn.
      * auto 6.
      * repeat split; auto. right. now exists ctx, n.
    + unfold onmessage. rewrite Ht.
      unfold bind, setIsSpeaking, modify, gets. cbn [audioContextRef].
      rewrite Hctx, Hb. cbn. auto 6.
  - unfold onmessage. rewrite Ht.
    unfold bind, setIsSpeaking, modify, gets. cbn [audioContextRef].
    rewrite Hctx. cbn. auto 6.
Qed.

Lemma connect_shape (role : string) (env : environment) (h : hook) :
  let h' := snd (connect role env h) in
  logs h' = logs h
  /\ (isConnected h' = true -> isConnected h = true)
  /\ nextStartTimeRef h' = nextStartTimeRef h
  /\ exists u, trace h' = trace h ++ u /\ Forall Timeline.quiet u.
Proof.
  cbv zeta. destruct h as [c s e l a i p ss n vi video t f].
  unfold connect, try_catch, bind, getUserMedia.
  destruct (API_KEY env) as [k|]; [destruct (truthy k)|];
    destruct (userMedia env); destruct video; cbn;
    (split; [reflexivity|]); (split; [auto; discriminate|]);
    (split; [reflexivity|]); extends_trace.
Qed.

Lemma disconnect_shape (h : hook) :
  let h' := snd (disconnect h) in
  logs h' = logs h
  /\ isConnected h' = false
  /\ nextStartTimeRef h' = 0
  /\ exists u, trace h' = trace h ++ u /\ Forall Timeline.quiet u.
Proof.
  cbv zeta. destruct h as [c s e l a i p ss n vi video t f].
  unfold disconnect, bind, gets, when_set.
  destruct i as [i|], p as [p|], a as [a|], vi as [vi|],
    video as [[v|]|]; cbn;
    (split; [reflexivity|]); (split; [reflexivity|]);
    (split; [reflexivity|]); extends_trace.
Qed.

(** The effect of one event on the log, the connection flag, the record of
    platform calls and the cursor. *)
Lemma step_frame (now : Q) (ev : event) (h : hook) :
  let h' := step now ev h in
  logs h' = logs h ++ Timeline.log_of ev
  /\ (isConnected h' = true -> ev = Open \/ isConnected h = true)
  /\ ((exists u, trace h' = trace h ++ u /\ Forall Timeline.quiet u
                 /\ (nextStartTimeRef h' = nextStartTimeRef h
                     \/ ev = Disconnect /\ nextStartTimeRef h' = 0))
      \/ exists ctx n,
           trace h'
           = trace h ++ [SourceStart ctx (later now (nextStartTimeRef h)) (S n)]
           /\ nextStartTimeRef h'
              = (later now (nextStartTimeRef h) + duration (S n))%Q).
Proof.
  cbv zeta. unfold step. destruct ev; cbn [handler Timeline.log_of].
  - destruct (connect_shape role env h) as [L [C [N [u [T Q]]]]].
    rewrite L, app_nil_r. split; [reflexivity|]. split; [auto|].
    left. exists u. auto.
  - cbn. split; [reflexivity|]. split; [auto|]. left.
    eexists. split; [reflexivity|]. split; [repeat constructor | auto].
  - rewrite onaudioprocess_result. cbn. rewrite app_nil_r.
    split; [reflexivity|]. split; [auto|]. left.
    eexists. split; [reflexivity|]. split; [repeat constructor | auto].
  - destruct (onmessage_shape now audioData h) as [C [L [_ S]]].
    rewrite L, app_nil_r. split; [reflexivity|].
    split; [rewrite C; auto|].
    destruct S as [[T N] | S]; [left | right; exact S].
    exists []. rewrite app_nil_r. repeat split; auto; try constructor.
  - unfold onended, bind, gets.
    destruct (Qle_bool (nextStartTimeRef h) now); cbn; rewrite app_nil_r;
      (split; [reflexivity|]); (split; [auto|]); left;
      exists []; rewrite app_nil_r; repeat split; auto; try constructor.
  - cbn. split; [reflexivity|]. split; [discriminate|]. left.
    exists []. rewrite app_nil_r. repeat split; auto; try constructor.
  - cbn. rewrite app_nil_r. split; [reflexivity|]. split; [discriminate|].
    left. eexists. split; [reflexivity|]. split; [repeat constructor | auto].
  - destruct (disconnect_shape h) as [L [C [N [u [T Q]]]]].
    rewrite L, app_nil_r, C. split; [reflexivity|]. split; [discriminate|].
    left. exists u. auto.
Qed.

Lemma run_cons (now : Q) (ev : event) (evs : list (Q * event)) (h : hook) :
  run ((now, ev) :: evs) h = run evs (step now ev h).
Proof. reflexivity. Qed.

Lemma starts_quiet (u : list effect) : Forall Timeline.quiet u -> starts u = [].
Proof.
  induction 1 as [|e u He _ IH]; [reflexivity|].
  change (e :: u) with ([e] ++ u). rewrite starts_app, He, IH. reflexivity.
Qed.

Lemma chained_app (free : Q) (t u : list effect) :
  Timeline.chained free (t ++ u)
  <-> Timeline.chained free t
      /\ Timeline.chained (Timeline.busy_until free t) u.
Proof.
  revert free. induction t as [|e t IH]; intros free.
  - cbn. tauto.
  - destruct e; cbn [app Timeline.chained Timeline.busy_until];
      rewrite ?IH; tauto.
Qed.

Lemma busy_until_app (free : Q) (t u : list effect) :
  Timeline.busy_until free (t ++ u)
  = Timeline.busy_until (Timeline.busy_until free t) u.
Proof.
  revert free. induction t as [|e t IH]; intros free.
  - reflexivity.
  - destruct e; cbn [app Timeline.busy_until]; apply IH.
Qed.

Lemma quiet_timeline (free : Q) (u : list effect) :
  Forall Timeline.quiet u ->
  Timeline.chained free u /\ Timeline.busy_until free u = free.
Proof.
  induction 1 as [|e u He _ [IH1 IH2]]; [now split|].
  destruct e; try (split; [exact IH1 | exact IH2]).
  unfold Timeline.quiet in He. cbn in He. discriminate.
Qed.

End Frames.

Section Invariants.

Import Live.

Lemma well_scheduled_step (now : Q) (ev : event) (h : hook) :
  ev <> Disconnect ->
  Timeline.well_scheduled h ->
  Timeline.well_scheduled (step now ev h).
Proof.
  intros Hev [C B]. unfold Timeline.well_scheduled.
  destruct (step_frame now ev h) as [_ [_ [[u [T [Q N]]] | [ctx [n [T N]]]]]];
    rewrite T, chained_app, busy_until_app.
  - destruct (quiet_timeline (Timeline.busy_until 0 (trace h)) u Q) as [Cu Bu].
    rewrite Bu. destruct N as [N | [E _]]; [|contradiction].
    rewrite N. auto.
  - rewrite N. cbn [Timeline.chained Timeline.busy_until].
    pose proof (later_ge_r now (nextStartTimeRef h)).
    repeat split; auto; try apply Qle_refl.
    now apply Qle_trans with (nextStartTimeRef h).
Qed.

Lemma nonnegative_step (now : Q) (ev : event) (h : hook) :
  0 <= nextStartTimeRef h /\ Forall (Qle 0) (starts (trace h)) ->
  0 <= nextStartTimeRef (step now ev h)
  /\ Forall (Qle 0) (starts (trace (step now ev h))).
Proof.
  intros [C HS].
  destruct (step_frame now ev h) as [_ [_ [[u [T [Q N]]] | [ctx [n [T N]]]]]];
    rewrite T, starts_app.
  - rewrite (starts_quiet u Q), app_nil_r. split; [|exact HS].
    destruct N as [N | [_ N]]; rewrite N; [exact C | apply Qle_refl].
  - rewrite N. cbn [starts].
    pose proof (later_ge_r now (nextStartTimeRef h)).
    pose proof (duration_nonneg (S n)).
    split; [lra|]. apply Forall_app. split; [exact HS|].
    constructor; [lra | constructor].
Qed.

End Invariants.

(** Within a session, segments never overlap: over any sequence of events
    other than [disconnect], whatever the clock reads at each of them, every
    segment handed to [source.start] begins at or after the end of the
    segment scheduled before it, and the cursor stays at or after the end of
    the last one.  The hook starts in such a state. *)
Theorem X_segments_never_overlap
    (evs : list (Q * Live.event)) (h : Live.hook) :
  Forall (fun e => snd e <> Live.Disconnect) evs ->
  Timeline.well_scheduled h ->
  Timeline.well_scheduled (Live.run evs h).
Proof.
  revert h. induction evs as [|[now ev] evs IH]; intros h Hev W.
  - exact W.
  - rewrite run_cons. inversion_clear Hev as [|? ? H1 H2].
    apply IH; [exact H2|]. now apply well_scheduled_step.
Qed.

Lemma X_segments_never_overlap_witness :
  Timeline.well_scheduled
    (Live.run [(0, Live.Connect "Engineer" Aux.env_ok); (0, Live.Open);
               (3, Live.Message (Some "AAAAAA=="%string));
               (1, Live.Message (Some "AAA="%string));
               (2, Live.Ended);
               (9, Live.Message (Some "AAA="%string))]
              (Live.initial (Some None))).
Proof.
  apply X_segments_never_overlap.
  - repeat constructor; discriminate.
  - split; [exact I | apply Qle_refl].
Defined.

(** [source.start] is never given a negative time and the cursor is never
    negative, over every sequence of events and whatever the clock reads,
    once this holds at the start (as it does for a new hook). *)
Theorem X_start_times_nonnegative
    (evs : list (Q * Live.event)) (h : Live.hook) :
  0 <= Live.nextStartTimeRef h ->
  Forall (Qle 0) (Live.starts (Live.trace h)) ->
  0 <= Live.nextStartTimeRef (Live.run evs h)
  /\ Forall (Qle 0) (Live.starts (Live.trace (Live.run evs h))).
Proof.
  intros C S. assert (G := conj C S). clear C S. revert h G.
  induction evs as [|[now ev] evs IH]; intros h G.
  - exact G.
  - rewrite run_cons. apply IH. now apply nonnegative_step.
Qed.

Lemma X_start_times_nonnegative_witness :
  0 <= Live.nextStartTimeRef
         (Live.run [(0, Live.Connect "Engineer" Aux.env_ok);
                    (-5, Live.Message (Some "AAA="%string));
                    (0, Live.Disconnect);
                    (-2, Live.Message (Some "AAA="%string))]
                   (Live.initial None)).
Proof.
  refine (proj1 (X_start_times_nonnegative _ (Live.initial None) _ _)).
  - apply Qle_refl.
  - constructor.
Defined.

(** The transcript log is append-only, and its lines are exactly those of
    the acknowledged openings and the remote closes, in the order of the
    events: [connect], [disconnect], a connection error and the audio
    handlers add no line. *)
Theorem X_log_lines_from_open_and_close
    (evs : list (Q * Live.event)) (h : Live.hook) :
  Live.logs (Live.run evs h)
  = Live.logs h ++ flat_map (fun e => Timeline.log_of (snd e)) evs.
Proof.
  revert h. induction evs as [|[now ev] evs IH]; intros h.
  - cbn. now rewrite app_nil_r.
  - rewrite run_cons, IH. cbn [flat_map snd].
    rewrite (proj1 (step_frame now ev h)). now rewrite app_assoc.
Qed.

(** Only the acknowledgement of a connection raises [isConnected]: if the
    flag is set after an event, the event was [onopen] or the flag was set
    before; after a remote close, a connection error or [disconnect] it is
    cleared. *)
Theorem X_only_open_sets_connected (now : Q) (ev : Live.event) (h : Live.hook) :
  (Live.isConnected (Live.step now ev h) = true ->
   ev = Live.Open \/ Live.isConnected h = true)
  /\ Live.isConnected (Live.step now Live.Open h) = true
  /\ Live.isConnected (Live.step now Live.Close h) = false
  /\ Live.isConnected (Live.step now Live.Error h) = false
  /\ Live.isConnected (Live.step now Live.Disconnect h) = false.
Proof.
  split; [apply (step_frame now ev h)|].
  split; [reflexivity|]. split; [reflexivity|]. split; [reflexivity|].
  apply (disconnect_shape h).
Qed.

(** ** Failed connects and undecodable payloads *)

(** Without a configured key (absent or empty) [connect] stops before any
    platform call: no audio context, no device request and no connection
    are made, the refs keep their values, the error reads "API Key missing"
    and [isConnected] is false.  The call itself does not throw. *)
Theorem X_connect_without_key
    (h : Live.hook) (now : Q) (role : string) (env : Live.environment) :
  Live.API_KEY env = None \/ Live.API_KEY env = Some EmptyString ->
  let h' := Live.step now (Live.Connect role env) h in
  fst (Live.connect role env h) = Live.Ok tt
  /\ Live.error h' = Some "API Key missing"%string
  /\ Live.isConnected h' = false
  /\ Live.trace h' = Live.trace h
  /\ Live.audioContextRef h' = Live.audioContextRef h
  /\ Live.sessionRef h' = Live.sessionRef h
  /\ Live.nextStartTimeRef h' = Live.nextStartTimeRef h
  /\ Live.logs h' = Live.logs h.
Proof.
  intros K. cbv zeta. unfold Live.step. cbn [Live.handler].
  destruct h as [c s e l a i p ss n vi video t f].
  unfold Live.connect, Live.try_catch, Live.bind.
  destruct K as [K | K]; rewrite K; cbn; repeat split; reflexivity.
Qed.

Lemma X_connect_without_key_witness :
  Live.trace (Live.step 0 (Live.Connect "Engineer" (Live.mkEnv None None))
                        Aux.active)
  = Live.trace Aux.active.
Proof.
  exact (proj1 (proj2 (proj2 (proj2
    (X_connect_without_key Aux.active 0 "Engineer" (Live.mkEnv None None)
       (or_introl eq_refl)))))).
Defined.



(** A payload that is not valid base64 makes the handler throw after the
    speaking flag has been raised: the flag is left set, nothing is
    scheduled, and the cursor, the connection flag and the error field keep
    their values.  A message without a payload, or with an empty one,
    changes nothing at all. *)
Theorem X_undecodable_payload
    (h : Live.hook) (ctx : nat) (now : Q) (data : string) :
  Live.audioContextRef h = Some ctx ->
  Live.truthy data = true ->
  Base64.base64ToUint8Array data = None ->
  let h' := Live.step now (Live.Message (Some data)) h in
  fst (Live.onmessage now (Some data) h) = Live.Throw "InvalidCharacterError"
  /\ Live.isSpeaking h' = true
  /\ Live.trace h' = Live.trace h
  /\ Live.nextStartTimeRef h' = Live.nextStartTimeRef h
  /\ Live.isConnected h' = Live.isConnected h
  /\ Live.error h' = Live.error h
  /\ Live.step now (Live.Message None) h = h
  /\ Live.step now (Live.Message (Some EmptyString)) h = h.
Proof.
  intros Hctx Ht Hb. cbv zeta. unfold Live.step. cbn [Live.handler].
  unfold Live.onmessage at 1 2 3 4 5 6. rewrite Ht.
  unfold Live.bind, Live.setIsSpeaking, Live.modify, Live.gets.
  cbn [Live.audioContextRef]. rewrite Hctx, Hb. cbn.
  repeat split; reflexivity.
Qed.

Lemma X_undecodable_payload_witness :
  Live.isSpeaking
    (Live.step 0 (Live.Message (Some "A"%string)) Aux.active) = true.
Proof.
  exact (proj1 (proj2
    (X_undecodable_payload Aux.active 0 0 "A" eq_refl eq_refl eq_refl))).
Defined.

(** ** Speaking flag through a burst, and the loop from capture to playback *)

Section Burst.

Import Live.

Lemma onended_speaking (now : Q) (h : hook) :
  isSpeaking (step now Ended h)
  = if Qle_bool (nextStartTimeRef h) now then false else isSpeaking h.
Proof.
  unfold step. cbn [handler]. unfold onended, bind, gets.
  destruct (Qle_bool (nextStartTimeRef h) now); reflexivity.
Qed.

End Burst.

(** When a second segment is queued while the first is still playing, the
    speaking flag is set and the cursor is the sum the code computed, the
    end of the first segment plus the duration of the second, which is not
    below the end of the first.  A playback-end event then leaves the flag
    set at every clock reading below that cursor and clears it at every
    reading that has reached it; only the code's own cursor value is
    compared with the reading. *)
Theorem X_speaking_until_last_segment_ends
    (h : Live.hook) (ctx : nat) (n1 n2 c : Q) (m1 m2 : string)
    (b1 b2 : list byte) :
  Live.audioContextRef h = Some ctx ->
  Aux.segment m1 b1 -> Aux.segment m2 b2 ->
  let t0 := Live.later n1 (Live.nextStartTimeRef h) in
  let end1 := t0 + Live.duration (Aux.frames_of b1) in
  n2 <= end1 ->
  let h2 := Live.step n2 (Live.Message (Some m2))
              (Live.step n1 (Live.Message (Some m1)) h) in
  Live.isSpeaking h2 = true
  /\ Live.nextStartTimeRef h2 = end1 + Live.duration (Aux.frames_of b2)
  /\ end1 <= Live.nextStartTimeRef h2
  /\ (c < Live.nextStartTimeRef h2 ->
      Live.isSpeaking (Live.step c Live.Ended h2) = true)
  /\ (Live.nextStartTimeRef h2 <= c ->
      Live.isSpeaking (Live.step c Live.Ended h2) = false).
Proof.
  intros Hctx S1 S2 t0 end1 A h2.
  destruct (step_message_segment h ctx n1 m1 b1 Hctx S1) as [C1 [_ [X1 _]]].
  destruct (step_message_segment _ ctx n2 m2 b2 X1 S2) as [C2 [_ [_ P2]]].
  fold h2 in C2, P2. rewrite C1 in C2. fold t0 in C2. fold end1 in C2.
  rewrite (later_behind n2 end1 A) in C2.
  split; [exact P2|]. split; [exact C2|]. split.
  { rewrite C2. pose proof (duration_nonneg (Aux.frames_of b2)). lra. }
  rewrite !onended_speaking, P2. split; intros T.
  - destruct (Qle_bool (Live.nextStartTimeRef h2) c) eqn:E; [|reflexivity].
    apply Qle_bool_iff in E. lra.
  - apply Qle_bool_iff in T. now rewrite T.
Qed.

Lemma X_speaking_until_last_witness :
  Live.isSpeaking
    (Live.step (1 # 100000) Live.Ended
       (Live.step 0 (Live.Message (Some "AAAAAA=="%string))
          (Live.step 0 (Live.Message (Some "AAA="%string)) Aux.active)))
  = true.
Proof.
  assert (S1 : Aux.segment "AAA=" [x00; x00]).
  { split; [reflexivity|]. split; [vm_compute; reflexivity | cbn; lia]. }
  assert (S2 : Aux.segment "AAAAAA==" [x00; x00; x00; x00]).
  { split; [reflexivity|]. split; [vm_compute; reflexivity | cbn; lia]. }
  assert (A : 0 <= Live.later 0 (Live.nextStartTimeRef Aux.active)
                   + Live.duration (Aux.frames_of [x00; x00])).
  { vm_compute. discriminate. }
  refine (proj1 (proj2 (proj2 (proj2
    (X_speaking_until_last_segment_ends Aux.active 0 0 0 (1 # 100000)
       "AAA=" "AAAAAA==" [x00; x00] [x00; x00; x00; x00]
       eq_refl S1 S2 A)))) _).
  vm_compute. reflexivity.
Defined.

(** What the capture path sends, the playback path accepts: the text sent
    for a buffer of [n >= 1] samples, received back as a payload, is
    scheduled as one segment of [n] frames starting at the later of clock
    and cursor, and the cursor advances by [n / 24000]. *)
Theorem X_sent_audio_is_playable
    (inputData : list JS.num) (g : Live.hook) (ctx : nat) (now : Q) :
  inputData <> [] ->
  Live.audioContextRef g = Some ctx ->
  let data :=
    Base64.toTransportText
      (flat_map (fun x => Buf.int16_le (Pcm.sample16 x)) inputData) in
  let g' := Live.step now (Live.Message (Some data)) g in
  let start := Live.later now (Live.nextStartTimeRef g) in
  fst (Live.onmessage now (Some data) g) = Live.Ok tt
  /\ Live.trace g'
     = Live.trace g ++ [Live.SourceStart ctx start (List.length inputData)]
  /\ Live.nextStartTimeRef g'
     = start + Live.duration (List.length inputData).
Proof.
  intros Hne Hctx data g' start.
  assert (L : List.length
                (flat_map (fun x => Buf.int16_le (Pcm.sample16 x)) inputData)
              = (2 * List.length inputData)%nat)
    by apply flat_map_int16_length.
  assert (N : (0 < List.length inputData)%nat)
    by (destruct inputData; [congruence | cbn; lia]).
  assert (Ht : Live.truthy data = true).
  { apply truthy_length. unfold data. rewrite toTransportText_length, L.
    assert (1 <= (2 * List.length inputData + 2) / 3)%nat
      by (apply Nat.div_le_lower_bound; lia).
    lia. }
  assert (F : Aux.frames_of
                (flat_map (fun x => Buf.int16_le (Pcm.sample16 x)) inputData)
              = List.length inputData).
  { unfold Aux.frames_of. rewrite L, Nat.mul_comm. apply Nat.div_mul. lia. }
  unfold g', start, Live.step. cbn [Live.handler].
  rewrite (onmessage_decoded g ctx now data _ Hctx Ht
             (toTransportText_decodes _)), F.
  destruct (List.length inputData) as [|n]; [lia|].
  cbn. repeat split; reflexivity.
Qed.

Lemma X_sent_audio_is_playable_witness :
  Live.nextStartTimeRef
    (Live.step 2
       (Live.Message
          (Some (Base64.toTransportText
                   (flat_map (fun x => Buf.int16_le (Pcm.sample16 x))
                             [JS.Fin (1 # 2); JS.NaN; JS.PosInf]))))
       Aux.active)
  = Live.later 2 (Live.nextStartTimeRef Aux.active) + Live.duration 3.
Proof.
  exact (proj2 (proj2
    (X_sent_audio_is_playable [JS.Fin (1 # 2); JS.NaN; JS.PosInf]
       Aux.active 0 2 ltac:(discriminate) eq_refl))).
Defined.

(** [disconnect] does not stop the inbound path: the output context stays
    in its ref and no handler looks at the connection state, so an audio
    message delivered after [disconnect] raises the speaking flag again and
    is scheduled on the closed context, from a cursor that restarts at 0. *)
Theorem X_message_after_disconnect_is_scheduled
    (h : Live.hook) (ctx : nat) (now now' : Q) (data : string)
    (bytes : list byte) :
  Live.audioContextRef h = Some ctx ->
  Aux.segment data bytes ->
  let h1 := Live.step now Live.Disconnect h in
  let h2 := Live.step now' (Live.Message (Some data)) h1 in
  Live.isConnected h2 = false
  /\ Live.isSpeaking h2 = true
  /\ Live.trace h2
     = Live.trace h1
         ++ [Live.SourceStart ctx (Live.later now' 0) (Aux.frames_of bytes)]
  /\ Live.nextStartTimeRef h2
     = Live.later now' 0 + Live.duration (Aux.frames_of bytes).
Proof.
  intros Hctx Hs h1 h2.
  destruct (disconnect_result h) as [t E].
  assert (A1 : Live.audioContextRef h1 = Some ctx)
    by (unfold h1, Live.step; cbn [Live.handler]; rewrite E; exact Hctx).
  assert (C1 : Live.nextStartTimeRef h1 = 0)
    by (unfold h1, Live.step; cbn [Live.handler]; now rewrite E).
  assert (K1 : Live.isConnected h1 = false)
    by (unfold h1, Live.step; cbn [Live.handler]; now rewrite E).
  destruct (step_message_segment h1 ctx now' data bytes A1 Hs)
    as [C [T [_ P]]].
  fold h2 in C, T, P. rewrite C1 in C, T.
  split; [|split; [exact P | split; [exact T | exact C]]].
  unfold h2, Live.step. cbn [Live.handler].
  rewrite (proj1 (onmessage_shape now' (Some data) h1)). exact K1.
Qed.

Lemma X_message_after_disconnect_witness :
  Live.isSpeaking
    (Live.step 4 (Live.Message (Some "AAA="%string))
       (Live.step 3 Live.Disconnect Aux.active))
  = true.
Proof.
  assert (S1 : Aux.segment "AAA=" [x00; x00]).
  { split; [reflexivity|]. split; [vm_compute; reflexivity | cbn; lia]. }
  exact (proj1 (proj2
    (X_message_after_disconnect_is_scheduled Aux.active 0 3 4 "AAA="
       [x00; x00] eq_refl S1))).
Defined.

(** ** Listings are always usable *)

Section ListingsMore.

Import Jobs.

Lemma listing_of_usable_fields (location : jsstring) (c : GroundingChunk) :
  usable c = true ->
  title (listing_of location c) <> []
  /\ url (listing_of location c) <> []
  /\ Jobs.location (listing_of location c) = location
  /\ company (listing_of location c) = lit "Source: Web".
Proof.
  intros H. apply usable_iff in H. destruct H as [u [t [E [Hu Ht]]]].
  rewrite (listing_of_usable location c u t E Hu Ht). cbn.
  repeat split; assumption.
Qed.

Lemma Forall_firstn {A} (P : A -> Prop) (n : nat) (l : list A) :
  Forall P l -> Forall P (firstn n l).
Proof.
  intros H. rewrite <- (firstn_skipn n l) in H.
  now apply Forall_app in H.
Qed.

End ListingsMore.

(** Every listing returned by [searchJobs] can be shown and followed: its
    title and its address are non-empty, its location is the requested one
    ([Remote] when none is given), and its company is one of the two fixed
    labels. *)
Theorem X_listings_have_title_and_address
    (role : Jobs.jsstring) (location : option Jobs.jsstring)
    (generated : Jobs.result Jobs.Response) (listings : list Jobs.JobListing) :
  Jobs.searchJobs role location generated = Jobs.Ok listings ->
  let loc := match location with Some l => l | None => Jobs.lit "Remote" end in
  Forall (fun j => Jobs.title j <> []
                   /\ Jobs.url j <> []
                   /\ Jobs.location j = loc
                   /\ (Jobs.company j = Jobs.lit "Source: Web"
                       \/ Jobs.company j = Jobs.lit "Google Search"))
         listings.
Proof.
  intros H loc. destruct generated as [response | reason]; [|discriminate].
  rewrite searchJobs_resolved in H. fold loc in H.
  destruct (filter Jobs.usable (Jobs.groundingChunks response))
    as [|c rest] eqn:G.
  - pose proof (fallback_well_formed role loc) as F.
    destruct (Jobs.fallback role loc) as [j|]; [|discriminate].
    injection H as <-. destruct F as [_ [T [C [L [query [_ U]]]]]].
    constructor; [|constructor]. rewrite T, U, L, C. repeat split.
    + destruct role; discriminate.
    + discriminate.
    + now right.
  - assert (K : Forall (fun j => Jobs.title j <> []
                                 /\ Jobs.url j <> []
                                 /\ Jobs.location j = loc
                                 /\ (Jobs.company j = Jobs.lit "Source: Web"
                                     \/ Jobs.company j = Jobs.lit "Google Search"))
                       (map (Jobs.listing_of loc) (firstn 6 (c :: rest)))).
    { rewrite <- G. apply Forall_map, Forall_firstn, Forall_forall.
      intros x Hx. apply filter_In in Hx. destruct Hx as [_ Hx].
      destruct (listing_of_usable_fields loc x Hx) as [T [U [L C]]].
      repeat split; auto. }
    injection H as <-. exact K.
Qed.

Lemma X_listings_witness :
  Forall (fun j => Jobs.title j <> []
                   /\ Jobs.url j <> []
                   /\ Jobs.location j = Jobs.lit "Remote"
                   /\ (Jobs.company j = Jobs.lit "Source: Web"
                       \/ Jobs.company j = Jobs.lit "Google Search"))
         [Jobs.mkJob (Jobs.lit "t") (Jobs.lit "Source: Web")
            (Jobs.lit "Remote") (Jobs.lit "u")].
Proof.
  apply (X_listings_have_title_and_address (Jobs.lit "Engineer") None
    (Jobs.Ok
       (Jobs.mkResponse
          (Some [Jobs.mkCandidate
                   (Some (Some [Jobs.mkChunk
                                  (Some (Jobs.mkWeb (Some (Jobs.lit "u"))
                                                    (Some (Jobs.lit "t"))))]))])))).
  vm_compute. reflexivity.
Defined.

(** ** Progress and navigation *)

Section Progress.

Import App.

Lemma includes_In (steps : list AppStep) (x : AppStep) :
  includes steps x = true <-> In x steps.
Proof.
  unfold includes. destruct (in_dec AppStep_eq_dec x steps); split;
    auto; discriminate.
Qed.

Lemma Set_add_spec (s : list AppStep) (x : AppStep) :
  NoDup s ->
  NoDup (Set_add s x) /\ (forall y, In y (Set_add s x) <-> In y s \/ y = x).
Proof.
  intros H. unfold Set_add. destruct (includes s x) eqn:E.
  - apply includes_In in E. split; [exact H|].
    intros y. split; [auto | intros [? | ->]; auto].
  - assert (N : ~ In x s) by (rewrite <- includes_In; congruence).
    split.
    + apply NoDup_app; [exact H | repeat constructor; intros [] |].
      intros a Ha [<- | []]. contradiction.
    + intros y. rewrite in_app_iff. cbn. intuition.
Qed.

Lemma fold_Set_add (values acc : list AppStep) :
  NoDup acc ->
  NoDup (fold_left Set_add values acc)
  /\ (forall y, In y (fold_left Set_add values acc) <-> In y acc \/ In y values).
Proof.
  revert acc. induction values as [|v values IH]; intros acc H; cbn [fold_left].
  - split; [exact H|]. intros y. cbn. tauto.
  - destruct (Set_add_spec acc v H) as [N I].
    destruct (IH _ N) as [N' I']. split; [exact N'|].
    intros y. rewrite I', I. cbn. intuition.
Qed.

(** A list without repetitions is its own set. *)
Lemma fold_Set_add_NoDup (values acc : list AppStep) :
  NoDup (acc ++ values) -> fold_left Set_add values acc = acc ++ values.
Proof.
  revert acc. induction values as [|v values IH]; intros acc H; cbn [fold_left].
  - now rewrite app_nil_r.
  - assert (E : Set_add acc v = acc ++ [v]).
    { unfold Set_add. destruct (includes acc v) eqn:E; [|reflexivity].
      apply includes_In in E. apply NoDup_remove_2 in H.
      exfalso. apply H. apply in_or_app. now left. }
    rewrite E, IH; rewrite <- app_assoc; [reflexivity | exact H].
Qed.

Lemma Set_from_snoc (steps : list AppStep) (x : AppStep) :
  NoDup steps ->
  Set_from (steps ++ [x]) = if includes steps x then steps else steps ++ [x].
Proof.
  intros H. unfold Set_from. rewrite fold_left_app. cbn [fold_left].
  rewrite (fold_Set_add_NoDup steps []) by exact H. reflexivity.
Qed.

Lemma completeStep_In (x y : AppStep) (a : app) :
  In y (completedSteps (completeStep x a))
  <-> In y (completedSteps a) \/ y = x.
Proof.
  cbn [completeStep completedSteps]. unfold Set_from.
  rewrite (proj2 (fold_Set_add _ [] (NoDup_nil _))), in_app_iff. cbn.
  intuition congruence.
Qed.

End Progress.

(** [completeStep] adds a step to a set: afterwards the list has no
    repetition (even if the stored list had some), it holds exactly the old
    steps and the new one, completing the same step again changes nothing,
    and on a list without repetition the old steps keep their order with a
    new step placed last.  The resume and the target role are untouched. *)
Theorem X_completeStep_is_set_insertion (x : App.AppStep) (a : App.app) :
  let a' := App.completeStep x a in
  NoDup (App.completedSteps a')
  /\ (forall y, In y (App.completedSteps a')
                <-> In y (App.completedSteps a) \/ y = x)
  /\ App.completeStep x a' = a'
  /\ (NoDup (App.completedSteps a) ->
      App.completedSteps a'
      = if App.includes (App.completedSteps a) x
        then App.completedSteps a
        else App.completedSteps a ++ [x])
  /\ App.resume a' = App.resume a
  /\ App.targetRole a' = App.targetRole a.
Proof.
  cbv zeta.
  assert (N : NoDup (App.completedSteps (App.completeStep x a))).
  { cbn. apply (fold_Set_add _ [] (NoDup_nil _)). }
  split; [exact N|]. split; [intros y; apply completeStep_In|].
  split.
  - unfold App.completeStep at 1. cbn [App.resume App.targetRole].
    rewrite (Set_from_snoc _ x N).
    assert (I : App.includes (App.completedSteps (App.completeStep x a)) x = true)
      by (apply includes_In, completeStep_In; now right).
    rewrite I. reflexivity.
  - split; [intros H; now apply Set_from_snoc|]. split; reflexivity.
Qed.

Section Sidebar.

Import App.
Local Open Scope string_scope.

(** The paths the sidebar offers, item by item. *)
Lemma reachable_iff (a : app) (p : string) :
  In p (reachable a)
  <-> p = "/"
      \/ (p = "/analysis" /\ present (resume a) = true)
      \/ (p = "/technical-prep" /\ present (targetRole a) = true)
      \/ (p = "/technical-quiz"
          /\ (includes (completedSteps a) TECHNICAL_PREP = true
              \/ present (targetRole a) = true))
      \/ (p = "/aptitude" /\ includes (completedSteps a) TECHNICAL_QUIZ = true)
      \/ (p = "/full-mock" /\ includes (completedSteps a) APTITUDE_JOBS = true)
      \/ (p = "/interview" /\ includes (completedSteps a) FULL_MOCK = true).
Proof.
  unfold reachable, menu.
  destruct (present (resume a)), (present (targetRole a)),
    (includes (completedSteps a) TECHNICAL_PREP),
    (includes (completedSteps a) TECHNICAL_QUIZ),
    (includes (completedSteps a) APTITUDE_JOBS),
    (includes (completedSteps a) FULL_MOCK);
    cbn; intuition (try discriminate; auto).
Qed.

Lemma includes_completeStep (x y : AppStep) (a : app) :
  includes (completedSteps a) y = true ->
  includes (completedSteps (completeStep x a)) y = true.
Proof.
  rewrite !includes_In, completeStep_In. auto.
Qed.

Lemma includes_completed (x : AppStep) (a : app) :
  includes (completedSteps (completeStep x a)) x = true.
Proof.
  rewrite includes_In, completeStep_In. auto.
Qed.

End Sidebar.

(** The sidebar only ever opens up: a page it offers stays offered after
    any step is completed, a resume is stored or a role is chosen.  On a
    first visit it offers the upload page alone, and whenever it offers the
    preparation page it offers the quiz page too. *)
Theorem X_sidebar_only_opens_up
    (a : App.app) (x : App.AppStep) (r : App.ParsedResume)
    (t : App.SuggestedRole) (p : string) :
  In p (App.reachable a) ->
  In p (App.reachable (App.completeStep x a))
  /\ In p (App.reachable (App.setResume r a))
  /\ In p (App.reachable (App.setTargetRole t a))
  /\ App.reachable App.fresh_app = ["/"%string]
  /\ (In "/technical-prep"%string (App.reachable a) ->
      In "/technical-quiz"%string (App.reachable a)).
Proof.
  intros H. rewrite !reachable_iff in *.
  pose proof (includes_completeStep x App.TECHNICAL_PREP a).
  pose proof (includes_completeStep x App.TECHNICAL_QUIZ a).
  pose proof (includes_completeStep x App.APTITUDE_JOBS a).
  pose proof (includes_completeStep x App.FULL_MOCK a).
  cbn [App.completeStep App.setResume App.setTargetRole App.resume
       App.targetRole App.completedSteps App.present] in *.
  split; [|split; [|split; [|split; [reflexivity|]]]].
  - intuition.
  - destruct H as [H | [[H _] | H]]; [auto | auto | intuition].
  - destruct H as [H | [H | [[H _] | [[H _] | H]]]]; intuition.
  - intros Q. destruct Q as [Q | [[Q _] | [[_ Q] | Q]]];
      try discriminate; try (right; right; right; left; split; auto; fail).
    destruct Q as [[Q _] | [[Q _] | [[Q _] | [Q _]]]]; discriminate.
Qed.

Lemma X_sidebar_only_opens_up_witness :
  In "/"%string
     (App.reachable (App.completeStep App.FULL_MOCK App.fresh_app)).
Proof.
  exact (proj1 (X_sidebar_only_opens_up App.fresh_app App.FULL_MOCK
                  (App.mkResume "" "" [] 0 []) (App.mkRole "" 0 "" None) "/"
                  (or_introl eq_refl))).
Defined.

(** Every handler that navigates goes to a page the sidebar offers in the
    state it leaves: after an upload the analysis page, after a role is
    chosen the preparation page, after skipping the learning material the
    aptitude page, after the preparation is marked complete the quiz page,
    after the aptitude page is finished the mock test, and after a reset
    the upload page, then the only page offered. *)
Theorem X_navigation_targets_are_offered
    (a : App.app) (data : App.ParsedResume) (role : App.SuggestedRole) :
  In (snd (App.uploadDone data a)) (App.reachable (fst (App.uploadDone data a)))
  /\ In (snd (App.handleSelectRole role a))
        (App.reachable (fst (App.handleSelectRole role a)))
  /\ In (snd (App.skipLearning role a))
        (App.reachable (fst (App.skipLearning role a)))
  /\ In (snd (App.markPrepComplete a))
        (App.reachable (fst (App.markPrepComplete a)))
  /\ In (snd (App.handleFinish a)) (App.reachable (fst (App.handleFinish a)))
  /\ App.reachable (fst (App.resetProgress a)) = [snd (App.resetProgress a)].
Proof.
  unfold App.uploadDone, App.handleSelectRole, App.skipLearning,
    App.markPrepComplete, App.handleFinish, App.resetProgress.
  cbn [fst snd]. rewrite !reachable_iff.
  split; [right; left; split; reflexivity|].
  split; [right; right; left; split; reflexivity|].
  split.
  { right; right; right; right; left. split; [reflexivity|].
    apply includes_completed. }
  split.
  { right; right; right; left. split; [reflexivity|]. left.
    apply includes_completed. }
  split; [|reflexivity].
  right; right; right; right; right; left. split; [reflexivity|].
  apply includes_completed.
Qed.

(** ** The quiz pages *)

Section Quiz.

Import App.

Lemma skipn_nth_error {A} (l : list A) (k : nat) (x : A) :
  nth_error l k = Some x -> skipn k l = x :: skipn (S k) l.
Proof.
  revert k. induction l as [|y l IH]; intros [|k]; cbn; try discriminate.
  - now intros [= ->].
  - apply IH.
Qed.

(** A run of answers from any question on: the score grows by the number
    of correct answers; the page finishes exactly when the last question is
    answered. *)
Lemma answerAll_from (answers : list nat) (p : quiz_page) :
  (currentQ p + List.length answers <= List.length (quiz p))%nat ->
  exists p',
    answerAll answers p = Some p'
    /\ quiz p' = quiz p
    /\ score p' = (score p + correct answers (skipn (currentQ p) (quiz p)))%nat
    /\ (answers <> [] ->
        (currentQ p + List.length answers = List.length (quiz p))%nat ->
        finished p' = true
        /\ currentQ p' = (List.length (quiz p) - 1)%nat
        /\ quiz_steps p' = Set_from (quiz_steps p ++ [TECHNICAL_QUIZ]))
    /\ ((currentQ p + List.length answers < List.length (quiz p))%nat ->
        finished p' = finished p
        /\ currentQ p' = (currentQ p + List.length answers)%nat
        /\ quiz_steps p' = quiz_steps p).
Proof.
  revert p. induction answers as [|idx rest IH]; intros p H.
  - exists p. cbn. repeat split; try lia; try congruence.
  - cbn [List.length] in H. cbn [answerAll]. unfold handleAnswer.
    destruct (nth_error (quiz p) (currentQ p)) as [q|] eqn:E.
    2:{ apply nth_error_None in E. lia. }
    rewrite (skipn_nth_error _ _ _ E). cbn [correct].
    destruct (Z.ltb_spec (Z.of_nat (currentQ p))
                (Z.of_nat (List.length (quiz p)) - 1)) as [L|L].
    + match goal with |- context [answerAll rest ?p1] =>
        destruct (IH p1) as [p' [A [Q [S [F N]]]]]; [cbn; lia|] end.
      cbn [quiz score currentQ finished quiz_steps] in *.
      exists p'. split; [exact A|]. split; [exact Q|].
      split; [rewrite S; destruct (Z.of_nat idx =? correctAnswer q)%Z; lia|].
      split.
      * intros _ T. destruct rest as [|i rest'].
        -- cbn in T. lia.
        -- destruct F as [F1 [F2 F3]]; [discriminate | cbn in *; lia |].
           auto.
      * intros T. destruct N as [N1 [N2 N3]]; [cbn in *; lia|].
        cbn [List.length]. repeat split; auto. lia.
    + assert (R : rest = []) by (destruct rest; [reflexivity | cbn in H; lia]).
      subst rest. cbn [answerAll List.length] in *. eexists.
      split; [reflexivity|]. cbn [quiz score currentQ finished quiz_steps].
      split; [reflexivity|].
      split; [destruct (Z.of_nat idx =? correctAnswer q)%Z;
              destruct (skipn (S (currentQ p)) (quiz p)); cbn; lia|].
      split.
      * intros _ _. repeat split. lia.
      * intros T. lia.
Qed.

Lemma correct_le (answers : list nat) (questions : list QuizQuestion) :
  (correct answers questions <= List.length answers)%nat.
Proof.
  revert questions. induction answers as [|idx rest IH]; intros [|q qs];
    cbn [correct List.length]; try lia.
  specialize (IH qs). destruct (Z.of_nat idx =? correctAnswer q)%Z; lia.
Qed.

Lemma mock_iter (k : nat) (p : mock_page) :
  (current p + k < List.length (questions p))%nat ->
  Nat.iter k mockAnswer p
  = mkMockPage (questions p) (current p + k) (mock_finished p) (mock_steps p).
Proof.
  revert p. induction k as [|k IH]; intros p H.
  - destruct p. cbn. now rewrite Nat.add_0_r.
  - rewrite Nat.iter_succ_r. rewrite IH.
    + unfold mockAnswer.
      destruct (Z.ltb_spec (Z.of_nat (current p))
                  (Z.of_nat (List.length (questions p)) - 1)); [|lia].
      cbn. f_equal. lia.
    + unfold mockAnswer.
      destruct (Z.ltb_spec (Z.of_nat (current p))
                  (Z.of_nat (List.length (questions p)) - 1)); cbn; lia.
Qed.

End Quiz.

(** On the technical quiz, answering the first [k] of [n >= 1] questions
    never fails; the score is the number of answers that hit the correct
    option and so is at most [k]; the quiz is finished, and the quiz step
    recorded as completed, exactly when all [n] questions are answered;
    until then the steps are untouched and the next question is number
    [k]. *)
Theorem X_quiz_score_counts_correct_answers
    (qs : list App.QuizQuestion) (answers : list nat)
    (steps : list App.AppStep) :
  (List.length answers <= List.length qs)%nat ->
  exists p,
    App.answerAll answers (App.startedQuiz qs steps) = Some p
    /\ App.score p = App.correct answers qs
    /\ (App.score p <= List.length answers)%nat
    /\ (answers <> [] -> List.length answers = List.length qs ->
        App.finished p = true /\ In App.TECHNICAL_QUIZ (App.quiz_steps p))
    /\ ((List.length answers < List.length qs)%nat ->
        App.finished p = false
        /\ App.currentQ p = List.length answers
        /\ App.quiz_steps p = steps).
Proof.
  intros H.
  destruct (answerAll_from answers (App.startedQuiz qs steps))
    as [p [A [Q [S [F N]]]]]; [cbn; lia|].
  cbn [App.startedQuiz App.quiz App.score App.currentQ App.finished
       App.quiz_steps skipn Nat.add] in *.
  exists p. split; [exact A|]. split; [exact S|].
  split; [rewrite S; apply correct_le|]. split.
  - intros Hne E. destruct (F Hne E) as [F1 [_ F3]]. split; [exact F1|].
    rewrite F3. unfold App.Set_from.
    apply (proj2 (fold_Set_add _ [] (NoDup_nil _))).
    right. apply in_or_app. right. now left.
  - intros L. now apply N.
Qed.

Lemma X_quiz_score_witness :
  exists p,
    App.answerAll [1%nat; 0%nat]
      (App.startedQuiz [App.mkQuestion "a" [] 1 ""; App.mkQuestion "b" [] 2 ""]
                       [])
    = Some p
    /\ App.score p = 1%nat.
Proof.
  destruct (X_quiz_score_counts_correct_answers
              [App.mkQuestion "a" [] 1 ""; App.mkQuestion "b" [] 2 ""]
              [1%nat; 0%nat] [] ltac:(cbn; lia)) as [p [A [S _]]].
  exists p. split; [exact A | exact S].
Defined.

(** On the mock test, with [n >= 1] questions, the first [n - 1] answers
    only move to the next question; the [n]-th marks the test finished and
    records the mock step as completed, whatever was answered. *)
Theorem X_mock_finishes_on_last_answer
    (qs : list App.QuizQuestion) (steps : list App.AppStep) (k : nat) :
  (k < List.length qs)%nat ->
  let p := Nat.iter k App.mockAnswer (App.mkMockPage qs 0 false steps) in
  p = App.mkMockPage qs k false steps
  /\ (S k = List.length qs ->
      App.mockAnswer p
      = App.mkMockPage qs k true (App.Set_from (steps ++ [App.FULL_MOCK])))
  /\ ((S k < List.length qs)%nat ->
      App.mockAnswer p = App.mkMockPage qs (S k) false steps).
Proof.
  intros H p.
  assert (E : p = App.mkMockPage qs k false steps).
  { unfold p. rewrite mock_iter; cbn; [reflexivity | lia]. }
  split; [exact E|]. rewrite E. unfold App.mockAnswer.
  cbn [App.current App.questions App.mock_finished App.mock_steps].
  split; intros T;
    destruct (Z.ltb_spec (Z.of_nat k) (Z.of_nat (List.length qs) - 1));
    try lia; reflexivity.
Qed.

Lemma X_mock_finishes_witness :
  App.mockAnswer
    (Nat.iter 1 App.mockAnswer
       (App.mkMockPage [App.mkQuestion "a" [] 0 ""; App.mkQuestion "b" [] 0 ""]
                       0 false []))
  = App.mkMockPage [App.mkQuestion "a" [] 0 ""; App.mkQuestion "b" [] 0 ""]
                   1 true (App.Set_from ([] ++ [App.FULL_MOCK])).
Proof.
  exact (proj1 (proj2
    (X_mock_finishes_on_last_answer
       [App.mkQuestion "a" [] 0 ""; App.mkQuestion "b" [] 0 ""] [] 1
       ltac:(cbn; lia))) eq_refl).
Defined.
